(** * Hot-Dog 3D viewer: mesh builders, camera and render pipeline

    A shallow embedding of the core of [Hot-Dog.py] (classes [Mesh],
    [Camera] and the method [Viewer3D.draw_mesh]) together with the
    properties of the rendering pipeline that can be read off the code.

    Modelling conventions.
    - Python [float] values are modelled as real numbers ([R]); [math.sin],
      [math.cos], [math.sqrt] and [math.pi] are the real functions.  Python
      [int] values are unbounded and modelled as [Z].
    - A method that mutates [self] is a computation in a state monad whose
      result is either a value or a raised exception; the mutations made
      before a [raise] stay in the state, as in Python.
    - Python lists are lists, tuples of indices are lists of [Z], and the
      dictionary [vertex_cache] is a finite map. *)

From Stdlib Require Import ZArith List Reals Lra Lia String Ascii Bool.
From Stdlib Require Import Sorting.Sorted Sorting.Permutation.
From stdpp Require Import gmap.

Open Scope R_scope.

(** ** Exceptions and the state monad *)

Inductive exn : Type :=
| ZeroDivisionError
| ValueError
| IndexError
| OSError.

Inductive result (A : Type) : Type :=
| Ok (a : A)
| Raise (e : exn).

Arguments Ok {A} a.
Arguments Raise {A} e.

(** A computation over the state [S]: the final state is returned in both
    outcomes, since an exception does not undo earlier assignments. *)
Definition M (S A : Type) : Type := S -> result A * S.

Definition ret {S A} (a : A) : M S A := fun s => (Ok a, s).

Definition bind {S A B} (c : M S A) (k : A -> M S B) : M S B :=
  fun s =>
    match c s with
    | (Ok a, s') => k a s'
    | (Raise e, s') => (Raise e, s')
    end.

Definition raise {S A} (e : exn) : M S A := fun s => (Raise e, s).

Definition gets {S A} (f : S -> A) : M S A := fun s => (Ok (f s), s).

Definition modify {S} (f : S -> S) : M S unit := fun s => (Ok tt, f s).

(** An expression that may raise, used inside a method. *)
Definition lift {S A} (r : result A) : M S A := fun s => (r, s).

Declare Scope py_scope.
Delimit Scope py_scope with py.
Notation "x <- c ;; k" := (bind c (fun x => k))
  (at level 100, c at next level, right associativity) : py_scope.
Notation "c ;; k" := (bind c (fun _ => k))
  (at level 100, right associativity) : py_scope.
Open Scope py_scope.

(** [for a in l: body a] *)
Fixpoint for_each {S A} (l : list A) (body : A -> M S unit) : M S unit :=
  match l with
  | [] => ret tt
  | a :: l' => body a ;; for_each l' body
  end.

(** [try: body; return True  except Exception: return False] *)
Definition try_bool {S} (body : M S unit) : M S bool :=
  fun s =>
    match body s with
    | (Ok _, s') => (Ok true, s')
    | (Raise _, s') => (Ok false, s')
    end.

(** ** Python primitives *)

(** [range(lo, hi)] and [range(n)] over integers. *)
Definition py_range2 (lo hi : Z) : list Z :=
  map (fun k => (lo + Z.of_nat k)%Z) (seq 0 (Z.to_nat (hi - lo))).

Definition py_range (n : Z) : list Z := py_range2 0 n.


(** [l[i]] with Python's negative indices; [IndexError] outside
    [-len(l) <= i < len(l)]. *)
Definition py_index {A} (l : list A) (i : Z) : result A :=
  let n := Z.of_nat (length l) in
  let k := if (i <? 0)%Z then (n + i)%Z else i in
  if ((0 <=? k) && (k <? n))%Z then
    match l !! Z.to_nat k with
    | Some a => Ok a
    | None => Raise IndexError
    end
  else Raise IndexError.

(** [a / b] on floats. *)
Definition py_div (a b : R) : result R :=
  if Req_dec_T b 0 then Raise ZeroDivisionError else Ok (a / b).

(** [int(x)] for a float [x]: truncation toward zero. *)
Definition int_of_float (x : R) : Z :=
  if Rle_dec 0 x then Int_part x else (- Int_part (- x))%Z.

(** [max(a, b, c)] *)
Definition max3 (a b c : R) : R := Rmax (Rmax a b) c.

(** [min(...)] and [max(...)] over a non-empty sequence given as head and
    tail. *)
Definition min_of (x : R) (l : list R) : R := fold_left Rmin l x.
Definition max_of (x : R) (l : list R) : R := fold_left Rmax l x.

(** The state of the module [random]: the stream of raw draws still to
    come.  [random.randint(lo, hi)] consumes one draw and returns an
    integer of [lo..hi]. *)
Definition RNG : Type := nat -> Z.

Definition draw_int (lo hi : Z) (g : RNG) : Z := (lo + g 0%nat mod (hi - lo + 1))%Z.
Definition advance (g : RNG) : RNG := fun n => g (S n).

(** ** Strings: [startswith], [split()], [split(sep)] *)

Definition startswith (p s : string) : bool := String.prefix p s.

(** ASCII characters for which [str.isspace] holds. *)
Definition is_space (c : ascii) : bool :=
  let n := nat_of_ascii c in
  ((9 <=? n) && (n <=? 13) || (28 <=? n) && (n <=? 32))%nat.

(** [s.split()]: the maximal runs of non-space characters.  [cur] is the
    run being read, in reverse. *)
Definition rev_string (cs : list ascii) : string :=
  fold_left (fun acc c => String c acc) cs EmptyString.

Fixpoint split_ws_aux (s : string) (cur : list ascii) : list string :=
  match s with
  | EmptyString =>
      match cur with [] => [] | _ => [rev_string cur] end
  | String c s' =>
      if is_space c then
        match cur with
        | [] => split_ws_aux s' []
        | _ => rev_string cur :: split_ws_aux s' []
        end
      else split_ws_aux s' (c :: cur)
  end.

(** [line.strip().split()] equals [line.split()]: splitting on white space
    ignores leading and trailing white space. *)
Definition split_ws (s : string) : list string := split_ws_aux s [].

(** [s.split(sep)] for a one-character separator: never empty. *)
Fixpoint split_char_aux (sep : ascii) (s : string) (cur : list ascii) : list string :=
  match s with
  | EmptyString => [rev_string cur]
  | String c s' =>
      if Ascii.eqb c sep then rev_string cur :: split_char_aux sep s' []
      else split_char_aux sep s' (c :: cur)
  end.

Definition split_char (sep : ascii) (s : string) : list string :=
  split_char_aux sep s [].

(** ** class Mesh *)

Definition vec3 : Type := R * R * R.
Definition face : Type := list Z.
Definition color : Type := Z * Z * Z.

(** What [Camera.project] returns: [(x_screen, y_screen, z)]. *)
Definition projected : Type := Z * Z * R.

Definition vx (v : vec3) : R := fst (fst v).
Definition vy (v : vec3) : R := snd (fst v).
Definition vz (v : vec3) : R := snd v.

(** The attributes assigned in [Mesh.__init__]; [texture] stays [None]
    throughout the program and is left out. *)
Record Mesh : Type := mkMesh {
  vertices : list vec3;
  faces : list face;
  normals : list vec3;
  colors : list color;
  bounding_box : vec3 * vec3;
  vertex_cache : gmap Z projected
}.

(** The state a [Mesh] method runs in: the object and the generator of the
    module [random]. *)
Record World : Type := mkWorld {
  self : Mesh;
  random : RNG
}.

Definition on_self (f : Mesh -> Mesh) : M World unit :=
  modify (fun w => mkWorld (f (self w)) (random w)).

Definition set_vertices (l : list vec3) : M World unit :=
  on_self (fun m => mkMesh l (faces m) (normals m) (colors m) (bounding_box m) (vertex_cache m)).
Definition set_faces (l : list face) : M World unit :=
  on_self (fun m => mkMesh (vertices m) l (normals m) (colors m) (bounding_box m) (vertex_cache m)).
Definition set_normals (l : list vec3) : M World unit :=
  on_self (fun m => mkMesh (vertices m) (faces m) l (colors m) (bounding_box m) (vertex_cache m)).
Definition set_colors (l : list color) : M World unit :=
  on_self (fun m => mkMesh (vertices m) (faces m) (normals m) l (bounding_box m) (vertex_cache m)).
Definition set_bounding_box (b : vec3 * vec3) : M World unit :=
  on_self (fun m => mkMesh (vertices m) (faces m) (normals m) (colors m) b (vertex_cache m)).
Definition set_vertex_cache (c : gmap Z projected) : M World unit :=
  on_self (fun m => mkMesh (vertices m) (faces m) (normals m) (colors m) (bounding_box m) c).

(** [self.vertices.append(v)] and its siblings. *)
Definition append_vertex (v : vec3) : M World unit :=
  l <- gets (fun w => vertices (self w)) ;; set_vertices (l ++ [v]).
Definition append_face (f : face) : M World unit :=
  l <- gets (fun w => faces (self w)) ;; set_faces (l ++ [f]).
Definition append_normal (n : vec3) : M World unit :=
  l <- gets (fun w => normals (self w)) ;; set_normals (l ++ [n]).
Definition append_color (c : color) : M World unit :=
  l <- gets (fun w => colors (self w)) ;; set_colors (l ++ [c]).

(** [random.randint(lo, hi)] *)
Definition randint (lo hi : Z) : M World Z :=
  fun w => (Ok (draw_int lo hi (random w)), mkWorld (self w) (advance (random w))).

Definition default_bounding_box : vec3 * vec3 := ((-1, -1, -1), (1, 1, 1)).

(** Lines 50-62. *)
Definition calculate_bounding_box : M World unit :=
  vs <- gets (fun w => vertices (self w)) ;;
  match vs with
  | [] => set_bounding_box default_bounding_box
  | v :: rest =>
      let min_x := min_of (vx v) (map vx rest) in
      let min_y := min_of (vy v) (map vy rest) in
      let min_z := min_of (vz v) (map vz rest) in
      let max_x := max_of (vx v) (map vx rest) in
      let max_y := max_of (vy v) (map vy rest) in
      let max_z := max_of (vz v) (map vz rest) in
      set_bounding_box ((min_x, min_y, min_z), (max_x, max_y, max_z))
  end.

(** Lines 64-70.  A pure reader of [self.bounding_box]. *)
Definition get_size (m : Mesh) : vec3 :=
  let '(min_pos, max_pos) := bounding_box m in
  (vx max_pos - vx min_pos, vy max_pos - vy min_pos, vz max_pos - vz min_pos).

(** Lines 72-78. *)
Definition get_center (m : Mesh) : vec3 :=
  let '(min_pos, max_pos) := bounding_box m in
  ((vx min_pos + vx max_pos) / 2,
   (vy min_pos + vy max_pos) / 2,
   (vz min_pos + vz max_pos) / 2).

Definition cube_vertices : list vec3 :=
  [(-1, -1, -1); (1, -1, -1); (1, 1, -1); (-1, 1, -1);
   (-1, -1, 1); (1, -1, 1); (1, 1, 1); (-1, 1, 1)].

Definition cube_faces : list face :=
  [[0; 1; 2]; [0; 2; 3];
   [4; 5; 6]; [4; 6; 7];
   [0; 4; 7]; [0; 7; 3];
   [1; 5; 6]; [1; 6; 2];
   [3; 2; 6]; [3; 6; 7];
   [0; 1; 5]; [0; 5; 4]]%Z.

Definition cube_normals : list vec3 :=
  [(0, 0, -1); (0, 0, -1);
   (0, 0, 1); (0, 0, 1);
   (-1, 0, 0); (-1, 0, 0);
   (1, 0, 0); (1, 0, 0);
   (0, 1, 0); (0, 1, 0);
   (0, -1, 0); (0, -1, 0)].

Definition cube_colors : list color :=
  [(255, 0, 0); (200, 0, 0);
   (0, 255, 0); (0, 200, 0);
   (0, 0, 255); (0, 0, 200);
   (255, 255, 0); (200, 200, 0);
   (255, 0, 255); (200, 0, 200);
   (0, 255, 255); (0, 200, 200)]%Z.

(** Lines 80-118. *)
Definition generate_cube : M World unit :=
  set_vertices cube_vertices ;;
  set_faces cube_faces ;;
  set_normals cube_normals ;;
  set_colors cube_colors ;;
  calculate_bounding_box ;;
  set_vertex_cache ∅.

(** One pass of the colour loop: three draws, one appended colour. *)
Definition random_color : M World unit :=
  r <- randint 100 255 ;;
  g <- randint 100 255 ;;
  b <- randint 100 255 ;;
  append_color (r, g, b).

(** Lines 120-165. *)
Definition generate_sphere (resolution : Z) : M World unit :=
  set_vertices [] ;;
  set_faces [] ;;
  set_normals [] ;;
  set_colors [] ;;
  set_vertex_cache ∅ ;;
  for_each (py_range (resolution + 1)) (fun i =>
    lat <- lift (py_div (PI * IZR i) (IZR resolution)) ;;
    let sin_lat := sin lat in
    let cos_lat := cos lat in
    for_each (py_range (resolution + 1)) (fun j =>
      lon <- lift (py_div (2 * PI * IZR j) (IZR resolution)) ;;
      let sin_lon := sin lon in
      let cos_lon := cos lon in
      let x := sin_lat * cos_lon in
      let y := cos_lat in
      let z := sin_lat * sin_lon in
      append_vertex (x, y, z) ;;
      append_normal (x, y, z))) ;;
  for_each (py_range resolution) (fun i =>
    for_each (py_range resolution) (fun j =>
      let v1 := (i * (resolution + 1) + j)%Z in
      let v2 := (v1 + 1)%Z in
      let v3 := (v1 + (resolution + 1))%Z in
      let v4 := (v2 + (resolution + 1))%Z in
      append_face [v1; v2; v3] ;;
      append_face [v2; v4; v3])) ;;
  n <- gets (fun w => length (faces (self w))) ;;
  for_each (seq 0 n) (fun _ => random_color) ;;
  calculate_bounding_box.

(** [Mesh.__init__], lines 40-48: empty sequences, then the cube. *)
Definition empty_mesh : Mesh :=
  mkMesh [] [] [] [] default_bounding_box ∅.

Definition Mesh_init : M World unit :=
  on_self (fun _ => empty_mesh) ;;
  generate_cube.

(** Lines 206-220 (and again 850-864 in [draw_mesh]): the normal of a
    triangle from two edge vectors. *)
Definition triangle_normal (v1 v2 v3 : vec3) : vec3 :=
  let u := (vx v2 - vx v1, vy v2 - vy v1, vz v2 - vz v1) in
  let v := (vx v3 - vx v1, vy v3 - vy v1, vz v3 - vz v1) in
  let normal :=
    (vy u * vz v - vz u * vy v,
     vz u * vx v - vx u * vz v,
     vx u * vy v - vy u * vx v) in
  let len := sqrt (vx normal ^ 2 + vy normal ^ 2 + vz normal ^ 2) in
  if Rlt_dec 0 len then
    (vx normal / len, vy normal / len, vz normal / len)
  else (0, 0, 1).

(** *** Import from a text file

    The environment of [load_from_obj]: the file system, read through
    [open(file_path)] and iteration over the lines (each line keeps its
    line end; [None] when the file cannot be opened or read), and the
    built-in conversions [float(s)] and [int(s)] on strings ([None] when
    they raise [ValueError]). *)
Section Importer.

Variable read_lines : string -> option (list string).
Variable float_of_string : string -> option R.
Variable int_of_string : string -> option Z.

Definition py_open (file_path : string) : result (list string) :=
  match read_lines file_path with
  | Some ls => Ok ls
  | None => Raise OSError
  end.

Definition py_float (s : string) : result R :=
  match float_of_string s with
  | Some x => Ok x
  | None => Raise ValueError
  end.

Definition py_int (s : string) : result Z :=
  match int_of_string s with
  | Some n => Ok n
  | None => Raise ValueError
  end.

(** Lines 178-181: a line that starts with ["v "]. *)
Definition read_vertex_line (line : string) : M World unit :=
  let parts := split_ws line in
  if (4 <=? length parts)%nat then
    p1 <- lift (py_index parts 1) ;;
    a <- lift (py_float p1) ;;
    p3 <- lift (py_index parts 3) ;;
    b <- lift (py_float p3) ;;
    p2 <- lift (py_index parts 2) ;;
    c <- lift (py_float p2) ;;
    append_vertex (a, - b, c)
  else ret tt.

(** Lines 186-189: the loop over [parts[1:]] that fills the local list
    [face_vertices]. *)
Fixpoint read_face_vertices (tokens : list string) (face_vertices : list Z)
  : M World (list Z) :=
  match tokens with
  | [] => ret face_vertices
  | t :: rest =>
      let vertex_parts := split_char "/" t in
      s <- lift (py_index vertex_parts 0) ;;
      n <- lift (py_int s) ;;
      read_face_vertices rest (face_vertices ++ [(n - 1)%Z])
  end.

(** Lines 192-196: fan triangulation. *)
Definition add_face (face_vertices : list Z) : M World unit :=
  if (3 <? length face_vertices)%nat then
    for_each (py_range2 1 (Z.of_nat (length face_vertices) - 1)) (fun j =>
      a <- lift (py_index face_vertices 0) ;;
      b <- lift (py_index face_vertices j) ;;
      c <- lift (py_index face_vertices (j + 1)) ;;
      append_face [a; b; c])
  else append_face face_vertices.

(** Lines 183-196: a line that starts with ["f "]. *)
Definition read_face_line (line : string) : M World unit :=
  let parts := split_ws line in
  if (4 <=? length parts)%nat then
    face_vertices <- read_face_vertices (skipn 1 parts) [] ;;
    add_face face_vertices
  else ret tt.

(** Lines 177-196: one pass of the loop over the lines. *)
Definition read_line (line : string) : M World unit :=
  if startswith "v " line then read_vertex_line line
  else if startswith "f " line then read_face_line line
  else ret tt.

(** Lines 201-224: one pass of the loop over the faces. *)
Definition add_normal (f : face) : M World unit :=
  if (3 <=? length f)%nat then
    vs <- gets (fun w => vertices (self w)) ;;
    i1 <- lift (py_index f 0) ;;
    v1 <- lift (py_index vs i1) ;;
    i2 <- lift (py_index f 1) ;;
    v2 <- lift (py_index vs i2) ;;
    i3 <- lift (py_index f 2) ;;
    v3 <- lift (py_index vs i3) ;;
    append_normal (triangle_normal v1 v2 v3)
  else append_normal (0, 0, 1).

(** Lines 169-236: the body of the [try]. *)
Definition load_body (file_path : string) : M World unit :=
  set_vertices [] ;;
  set_faces [] ;;
  set_normals [] ;;
  set_colors [] ;;
  set_vertex_cache ∅ ;;
  lines <- lift (py_open file_path) ;;
  for_each lines read_line ;;
  set_normals [] ;;
  fs <- gets (fun w => faces (self w)) ;;
  for_each fs add_normal ;;
  set_colors [] ;;
  n <- gets (fun w => length (faces (self w))) ;;
  for_each (seq 0 n) (fun _ => random_color) ;;
  calculate_bounding_box.

(** Lines 167-240.  The message printed in the handler is not
    modelled. *)
Definition load_from_obj (file_path : string) : M World bool :=
  try_bool (load_body file_path).

End Importer.

(** Conversions used to run the importer on concrete files: signed
    decimal integers, on which they agree with [int] and [float]. *)
Definition digit_of (c : ascii) : option Z :=
  let n := nat_of_ascii c in
  if ((48 <=? n) && (n <=? 57))%nat then Some (Z.of_nat (n - 48)) else None.

Fixpoint digits_value (s : string) (acc : Z) : option Z :=
  match s with
  | EmptyString => Some acc
  | String c s' =>
      match digit_of c with
      | Some d => digits_value s' (10 * acc + d)%Z
      | None => None
      end
  end.

Definition decimal_int (s : string) : option Z :=
  match s with
  | EmptyString => None
  | String "-" EmptyString => None
  | String "-" s' => option_map Z.opp (digits_value s' 0)
  | _ => digits_value s 0
  end.

Definition decimal_float (s : string) : option R :=
  option_map IZR (decimal_int s).

(** ** class Camera *)

Module Camera.

(** The camera-state tuple stored in [cache_key]:
    [(rot_x, rot_y, z, pan_x, pan_y)]. *)
Definition key : Type := R * R * R * R * R.

(** The attributes assigned in [__init__], lines 244-259. *)
Record t : Type := mk {
  x : R;
  y : R;
  z : R;
  rot_x : R;
  rot_y : R;
  rot_z : R;
  fov : R;
  near : R;
  far : R;
  pan_x : R;
  pan_y : R;
  last_rot_x : R;
  last_rot_y : R;
  moved : bool;
  cache_key : option key
}.

Definition init : t :=
  {| x := 0; y := 0; z := -5;
     rot_x := 0; rot_y := 0; rot_z := 0;
     fov := 60; near := 0.1; far := 100.0;
     pan_x := 0; pan_y := 0;
     last_rot_x := 0; last_rot_y := 0;
     moved := true; cache_key := None |}.

Definition set_x (v : R) (c : t) : t :=
  mk v (y c) (z c) (rot_x c) (rot_y c) (rot_z c) (fov c) (near c) (far c)
     (pan_x c) (pan_y c) (last_rot_x c) (last_rot_y c) (moved c) (cache_key c).
Definition set_y (v : R) (c : t) : t :=
  mk (x c) v (z c) (rot_x c) (rot_y c) (rot_z c) (fov c) (near c) (far c)
     (pan_x c) (pan_y c) (last_rot_x c) (last_rot_y c) (moved c) (cache_key c).
Definition set_z (v : R) (c : t) : t :=
  mk (x c) (y c) v (rot_x c) (rot_y c) (rot_z c) (fov c) (near c) (far c)
     (pan_x c) (pan_y c) (last_rot_x c) (last_rot_y c) (moved c) (cache_key c).
Definition set_rot_x (v : R) (c : t) : t :=
  mk (x c) (y c) (z c) v (rot_y c) (rot_z c) (fov c) (near c) (far c)
     (pan_x c) (pan_y c) (last_rot_x c) (last_rot_y c) (moved c) (cache_key c).
Definition set_rot_y (v : R) (c : t) : t :=
  mk (x c) (y c) (z c) (rot_x c) v (rot_z c) (fov c) (near c) (far c)
     (pan_x c) (pan_y c) (last_rot_x c) (last_rot_y c) (moved c) (cache_key c).
Definition set_pan_x (v : R) (c : t) : t :=
  mk (x c) (y c) (z c) (rot_x c) (rot_y c) (rot_z c) (fov c) (near c) (far c)
     v (pan_y c) (last_rot_x c) (last_rot_y c) (moved c) (cache_key c).
Definition set_pan_y (v : R) (c : t) : t :=
  mk (x c) (y c) (z c) (rot_x c) (rot_y c) (rot_z c) (fov c) (near c) (far c)
     (pan_x c) v (last_rot_x c) (last_rot_y c) (moved c) (cache_key c).
Definition set_moved (v : bool) (c : t) : t :=
  mk (x c) (y c) (z c) (rot_x c) (rot_y c) (rot_z c) (fov c) (near c) (far c)
     (pan_x c) (pan_y c) (last_rot_x c) (last_rot_y c) v (cache_key c).

(** Lines 261-289.  [WIDTH] and [HEIGHT] are the module's globals (1200
    and 800 at start, reassigned when the window is resized); the
    parameter [cache_key] of the source is never used.  The division
    raises when [z + 1e-5] is zero. *)
Definition project (WIDTH HEIGHT : Z) (c : t) (point : vec3) : result projected :=
  let '(px, py, pz) := point in
  let x_rot := px * cos (rot_y c) - pz * sin (rot_y c) in
  let z_rot := px * sin (rot_y c) + pz * cos (rot_y c) in
  let px := x_rot in
  let pz := z_rot in
  let y_rot := py * cos (rot_x c) - pz * sin (rot_x c) in
  let z_rot := py * sin (rot_x c) + pz * cos (rot_x c) in
  let py := y_rot in
  let pz := z_rot in
  let px := px + (x c + pan_x c) in
  let py := py + (y c + pan_y c) in
  let pz := pz + z c in
  match py_div (fov c) (pz + 1e-5) with
  | Raise e => Raise e
  | Ok factor =>
      let x_proj := px * factor in
      let y_proj := py * factor in
      let x_screen := (WIDTH / 2 + int_of_float (x_proj * 100))%Z in
      let y_screen := (HEIGHT / 2 + int_of_float (y_proj * 100))%Z in
      Ok (x_screen, y_screen, pz)
  end.

(** The two objects [auto_position] can reach: the camera [self] and the
    mesh passed as argument. *)
Record scene : Type := mkScene {
  cam : t;
  arg_mesh : Mesh
}.

Definition on_cam (f : t -> t) : M scene unit :=
  modify (fun s => mkScene (f (cam s)) (arg_mesh s)).

(** Lines 291-307. *)
Definition auto_position : M scene unit :=
  size <- gets (fun s => get_size (arg_mesh s)) ;;
  center <- gets (fun s => get_center (arg_mesh s)) ;;
  let max_dim := max3 (vx size) (vy size) (vz size) in
  on_cam (set_z (- max_dim * 2.5)) ;;
  on_cam (set_pan_x (- vx center)) ;;
  on_cam (set_pan_y (- vy center)) ;;
  on_cam (set_x 0) ;;
  on_cam (set_y 0) ;;
  on_cam (set_rot_x 0) ;;
  on_cam (set_rot_y 0) ;;
  on_cam (set_moved true).

End Camera.

(** ** Viewer3D.draw_mesh *)

#[global] Instance R_eq_dec : EqDecision R := Req_dec_T.

(** A call [pygame.draw.polygon(screen, color, points, width)]; width 0 is
    a filled polygon. *)
Inductive draw_cmd : Type :=
| Polygon (col : color) (points : list (Z * Z)) (width : Z).


(** What [draw_mesh] reads and writes: attributes of the viewer, the
    module's globals [WIDTH] and [HEIGHT], and the surface [screen], kept
    as the list of polygons drawn on it. *)
Record Viewer : Type := mkViewer {
  mesh : Mesh;
  camera : Camera.t;
  light_angle : R;
  shading_mode : Z;
  texture_map_mode : Z;
  performance_mode : bool;
  WIDTH : Z;
  HEIGHT : Z;
  screen : list draw_cmd
}.

Definition on_mesh (f : Mesh -> Mesh) : M Viewer unit :=
  modify (fun v => mkViewer (f (mesh v)) (camera v) (light_angle v) (shading_mode v)
                     (texture_map_mode v) (performance_mode v) (WIDTH v) (HEIGHT v) (screen v)).



Definition with_cache (c : gmap Z projected) (m : Mesh) : Mesh :=
  mkMesh (vertices m) (faces m) (normals m) (colors m) (bounding_box m) c.

(** [self.camera.project(vertex)] *)
Definition camera_project (vertex : vec3) : M Viewer projected :=
  fun v => (Camera.project (WIDTH v) (HEIGHT v) (camera v) vertex, v).

(** [self.mesh.vertex_cache[vertex_idx] = projected] *)
Definition cache_store (vertex_idx : Z) (p : projected) : M Viewer unit :=
  on_mesh (fun m => with_cache (<[vertex_idx := p]> (vertex_cache m)) m).

(** Lines 785-794. *)
Definition light_direction (angle : R) : vec3 :=
  let light_dir := (cos angle, sin angle, 0.5) in
  let len := sqrt (vx light_dir ^ 2 + vy light_dir ^ 2 + vz light_dir ^ 2) in
  if Rlt_dec 0 len then (vx light_dir / len, vy light_dir / len, vz light_dir / len)
  else light_dir.




(** Lines 815-820: the projection of one vertex in the depth loop. *)
Definition projection_for_depth (use_cache : bool) (vertex_idx : Z) (vertex : vec3)
  : M Viewer projected :=
  cache <- gets (fun v => vertex_cache (mesh v)) ;;
  match (if use_cache then cache !! vertex_idx else None) with
  | Some p => ret p
  | None => p <- camera_project vertex ;; cache_store vertex_idx p ;; ret p
  end.



(** Line 832, [face_depths.sort(key=lambda x: x[1], reverse=True)]: the
    built-in sort is stable, and with [reverse=True] elements with equal
    keys still keep their original order.  Modelled by insertion from the
    right: an element goes behind the elements of strictly greater depth. *)
Fixpoint insert_by_depth (p : nat * R) (l : list (nat * R)) : list (nat * R) :=
  match l with
  | [] => [p]
  | q :: l' =>
      if Rlt_dec (snd p) (snd q) then q :: insert_by_depth p l' else p :: q :: l'
  end.

Definition sort_by_depth (l : list (nat * R)) : list (nat * R) :=
  fold_right insert_by_depth [] l.

(** Lines 884-927: the colour of a face for the selected texture map mode.
    Nothing is clamped. *)
Definition texture_color (mode : Z) (base_color : color) (intensity : R) : color :=
  let '(r, g, b) := base_color in
  if (mode =? 0)%Z then
    (int_of_float (IZR r * intensity),
     int_of_float (IZR g * intensity),
     int_of_float (IZR b * intensity))
  else if (mode =? 1)%Z then
    (int_of_float (100 * intensity),
     int_of_float (100 * intensity),
     int_of_float (255 * intensity))
  else if (mode =? 2)%Z then
    (int_of_float (255 * intensity),
     int_of_float (255 * intensity),
     int_of_float (255 * intensity))
  else if (mode =? 3)%Z then
    let metallic := (intensity + 0.5) / 2 in
    (int_of_float (200 * metallic),
     int_of_float (200 * metallic),
     int_of_float (200 * metallic))
  else if (mode =? 4)%Z then
    let roughness := 1 - intensity in
    (int_of_float (100 * roughness),
     int_of_float (100 * roughness),
     int_of_float (100 * roughness))
  else
    let glossiness := intensity * 1.5 in
    (int_of_float (255 * glossiness),
     int_of_float (255 * glossiness),
     int_of_float (255 * glossiness)).

(** Lines 870-875. *)
Definition facing_of (normal : vec3) : bool :=
  if Rlt_dec 0 (vz normal) then true else false.

Definition intensity_of (normal light_dir : vec3) : R :=
  if facing_of normal then
    Rmax 0.2 (vx normal * vx light_dir + vy normal * vy light_dir + vz normal * vz light_dir)
  else 0.2.







(** ** Specification vocabulary *)

(** Partial-correctness triples with an exceptional postcondition: from a
    state in [P], the computation ends in [Q] if it returns and in [E] if it
    raises.  Every computation of [M] ends, so a triple whose [E] is
    [fun _ _ => False] also says that a value is returned. *)
Definition hoare {S A} (P : S -> Prop) (c : M S A)
    (Q : A -> S -> Prop) (E : exn -> S -> Prop) : Prop :=
  forall s, P s ->
    match c s with
    | (Ok a, s') => Q a s'
    | (Raise e, s') => E e s'
    end.

Definition never {S} : exn -> S -> Prop := fun _ _ => False.

(** The vertex the sphere builder computes for ring [i] and position [j]. *)
Definition sphere_point (resolution i j : Z) : vec3 :=
  let lat := PI * IZR i / IZR resolution in
  let lon := 2 * PI * IZR j / IZR resolution in
  (sin lat * cos lon, cos lat, sin lat * sin lon).

Definition sphere_points (resolution : Z) : list vec3 :=
  flat_map (fun i => map (sphere_point resolution i) (py_range (resolution + 1)))
           (py_range (resolution + 1)).

(** The two triangles of the quad cell [(i, j)]. *)
Definition sphere_cell (resolution i j : Z) : list face :=
  let v1 := (i * (resolution + 1) + j)%Z in
  let v2 := (v1 + 1)%Z in
  let v3 := (v1 + (resolution + 1))%Z in
  let v4 := (v2 + (resolution + 1))%Z in
  [[v1; v2; v3]; [v2; v4; v3]].

Definition sphere_faces (resolution : Z) : list face :=
  flat_map (fun i => flat_map (sphere_cell resolution i) (py_range resolution))
           (py_range resolution).

(** Euclidean length of a vector. *)
Definition norm (v : vec3) : R := sqrt (vx v ^ 2 + vy v ^ 2 + vz v ^ 2).

(** A face whose entries are all indices [0 <= i < n]. *)
Definition valid_index (n : nat) (i : Z) : Prop := (0 <= i < Z.of_nat n)%Z.

Definition valid_face (n : nat) (f : face) : Prop :=
  length f = 3%nat /\ Forall (valid_index n) f.

(** An index Python accepts for a sequence of length [n]. *)
Definition py_valid_index (n : nat) (i : Z) : Prop :=
  (- Z.of_nat n <= i < Z.of_nat n)%Z.

(** The mesh invariant of the data model: one normal and one colour per
    face. *)
Definition parallel_sequences (m : Mesh) : Prop :=
  length (normals m) = length (faces m) /\ length (faces m) = length (colors m).

(** Channel range of an 8-bit colour. *)
Definition channel_ok (c : Z) : Prop := (0 <= c <= 255)%Z.

Definition color_ok (c : color) : Prop :=
  let '(r, g, b) := c in channel_ok r /\ channel_ok g /\ channel_ok b.


(** Depth order of the painter's algorithm: farthest first. *)
Definition deeper_or_equal (p q : nat * R) : Prop := snd q <= snd p.

Definition has_depth (d : R) (p : nat * R) : bool := bool_decide (snd p = d).

(** The four parallel sequences of a mesh, read together. *)
Definition seqs (w : World) : list vec3 * list vec3 * list face * list color :=
  (vertices (self w), normals (self w), faces (self w), colors (self w)).

(** A face as the importer can leave it: three indices Python accepts. *)
Definition py_valid_face (n : nat) (f : face) : Prop :=
  length f = 3%nat /\ Forall (py_valid_index n) f.

(** What is known of the mesh when an import has failed: no colours, an
    empty projection cache, and the bounding box [b0] from before. *)
Definition failed_import (b0 : vec3 * vec3) (w : World) : Prop :=
  colors (self w) = [] /\ vertex_cache (self w) = ∅ /\ bounding_box (self w) = b0.

(** Invariant of the loop over the lines. *)
Definition parsing (b0 : vec3 * vec3) (w : World) : Prop :=
  normals (self w) = [] /\ failed_import b0 w /\
  Forall (fun f : face => length f = 3%nat) (faces (self w)).

(** State of the import while the normals are computed. *)
Definition importing (b0 : vec3 * vec3) (V N : list vec3) (F : list face) (w : World) : Prop :=
  seqs w = (V, N, F, []) /\ vertex_cache (self w) = ∅ /\ bounding_box (self w) = b0.

(** What is known of the mesh when an import has succeeded. *)
Definition imported (w : World) : Prop :=
  exists V N F C, seqs w = (V, N, F, C) /\
    length N = length F /\ length C = length F /\
    Forall (py_valid_face (length V)) F.

(** A world to run the builders in: no geometry yet, and a generator that
    always draws zero. *)
Definition still_world : World := mkWorld empty_mesh (fun _ => 0%Z).

(** *** Inputs used in the examples *)

Definition nl : string := String (ascii_of_nat 10) EmptyString.

Definition line (s : string) : string := (s ++ nl)%string.


Definition relative_index_obj : list string :=
  [line "# a triangle given with relative indices";
   line "v 0 0 0"; line "v 1 0 0"; line "v 0 1 0"; line "v 0 0 1";
   line "f -1 -2 -3"].

Definition single_point_obj : list string := [line "v 1 2 3"].

Definition cube_world : World := snd (Mesh_init still_world).

Definition import_lines (ls : list string) (w : World) : result bool * World :=
  load_from_obj (fun _ => Some ls) decimal_float decimal_int "model.obj" w.


(** *** The projection cache *)



Definition recompute (vertex_idx : Z) (vertex : vec3) (v : Viewer) : result projected * Viewer :=
  match Camera.project (WIDTH v) (HEIGHT v) (camera v) vertex with
  | Ok p =>
      (Ok p,
       mkViewer (with_cache (<[vertex_idx := p]> (vertex_cache (mesh v))) (mesh v))
         (camera v) (light_angle v) (shading_mode v) (texture_map_mode v)
         (performance_mode v) (WIDTH v) (HEIGHT v) (screen v))
  | Raise e => (Raise e, v)
  end.




(** ** Further vocabulary *)

(** A point inside an axis-aligned box given by its two corners. *)
Definition inside_box (b : vec3 * vec3) (v : vec3) : Prop :=
  (vx (fst b) <= vx v <= vx (snd b)) /\
  (vy (fst b) <= vy v <= vy (snd b)) /\
  (vz (fst b) <= vz v <= vz (snd b)).

Definition dot (a b : vec3) : R := vx a * vx b + vy a * vy b + vz a * vz b.

(** The edge vector from [a] to [b]. *)
Definition edge (a b : vec3) : vec3 := (vx b - vx a, vy b - vy a, vz b - vz a).

(** What every builder leaves behind, whether it returns or raises: unit
    normals, colours with 8-bit channels, and no cached projection. *)
Definition mesh_wf (m : Mesh) : Prop :=
  Forall (fun n => norm n = 1) (normals m) /\
  Forall color_ok (colors m) /\
  vertex_cache m = ∅.

Definition world_wf (w : World) : Prop := mesh_wf (self w).

(** A mesh whose bounding box is up to date. *)
Definition boxed (w : World) : Prop :=
  Forall (inside_box (bounding_box (self w))) (vertices (self w)).

(** The triangles of the fan over the polygon [fv]: the first corner with
    each pair of consecutive later corners. *)
Definition fan (fv : list Z) : list face :=
  map (fun j => [nth 0 fv 0%Z; nth j fv 0%Z; nth (S j) fv 0%Z])
      (seq 1 (length fv - 2)).

(** ** The monad and the triples *)

Lemma hoare_ret {S A} (P : S -> Prop) (a : A) (Q : A -> S -> Prop) E :
  (forall s, P s -> Q a s) -> hoare P (ret a) Q E.
Proof. intros H s Hs. simpl. auto. Qed.

Lemma hoare_bind {S A B} (P : S -> Prop) (c : M S A) (k : A -> M S B)
    (R : A -> S -> Prop) (Q : B -> S -> Prop) E :
  hoare P c R E -> (forall a, hoare (R a) (k a) Q E) -> hoare P (bind c k) Q E.
Proof.
  intros Hc Hk s Hs. unfold bind. specialize (Hc s Hs).
  destruct (c s) as [[a | e] s']; [ apply (Hk a s' Hc) | exact Hc ].
Qed.

Lemma hoare_conseq {S A} (P P' : S -> Prop) (c : M S A)
    (Q Q' : A -> S -> Prop) (E E' : exn -> S -> Prop) :
  hoare P' c Q' E' ->
  (forall s, P s -> P' s) ->
  (forall a s, Q' a s -> Q a s) ->
  (forall e s, E' e s -> E e s) ->
  hoare P c Q E.
Proof.
  intros H HP HQ HE s Hs. specialize (H s (HP s Hs)).
  destruct (c s) as [[a | e] s']; auto.
Qed.

Lemma hoare_weaken {S A} (P P' : S -> Prop) (c : M S A) (Q Q' : A -> S -> Prop) E :
  hoare P' c Q' E ->
  (forall s, P s -> P' s) ->
  (forall a s, Q' a s -> Q a s) ->
  hoare P c Q E.
Proof. intros H HP HQ. eapply hoare_conseq; eauto. Qed.

Lemma hoare_pre {S A} (P P' : S -> Prop) (c : M S A) Q E :
  hoare P' c Q E -> (forall s, P s -> P' s) -> hoare P c Q E.
Proof. intros H HP. eapply hoare_conseq; eauto. Qed.


Lemma hoare_modify {S} (P : S -> Prop) (f : S -> S) (Q : unit -> S -> Prop) E :
  (forall s, P s -> Q tt (f s)) -> hoare P (modify f) Q E.
Proof. intros H s Hs. simpl. auto. Qed.

Lemma hoare_lift {S A} (P : S -> Prop) (r : result A) (Q : A -> S -> Prop) E :
  (forall s, P s -> match r with Ok a => Q a s | Raise e => E e s end) ->
  hoare P (lift r) Q E.
Proof. intros H s Hs. unfold lift. specialize (H s Hs). destruct r; auto. Qed.

Lemma hoare_bind_lift {S A B} (P : S -> Prop) (r : result A) (a : A)
    (k : A -> M S B) Q E :
  r = Ok a -> hoare P (k a) Q E -> hoare P (bind (lift r) k) Q E.
Proof. intros -> H s Hs. unfold bind, lift. apply H, Hs. Qed.

Lemma hoare_modify_seq {S B} (P : S -> Prop) (f : S -> S) (k : M S B) Q E :
  hoare (fun s' => exists s, P s /\ s' = f s) k Q E ->
  hoare P (modify f ;; k) Q E.
Proof. intros H s Hs. unfold bind, modify. apply H. eauto. Qed.

Lemma hoare_gets_seq {S A B} (P : S -> Prop) (f : S -> A) (k : A -> M S B) Q E :
  (forall a, hoare (fun s => P s /\ a = f s) (k a) Q E) ->
  hoare P (bind (gets f) k) Q E.
Proof. intros H s Hs. unfold bind, gets. apply (H (f s)). auto. Qed.

Lemma hoare_intro_ex {S A X} (P : X -> S -> Prop) (c : M S A) Q E :
  (forall x, hoare (P x) c Q E) -> hoare (fun s => exists x, P x s) c Q E.
Proof. intros H s [x Hx]. apply (H x s Hx). Qed.

Lemma hoare_pure_l {S A} (phi : Prop) (P : S -> Prop) (c : M S A) Q E :
  (phi -> hoare P c Q E) -> hoare (fun s => phi /\ P s) c Q E.
Proof. intros H s [Hphi Hs]. apply (H Hphi s Hs). Qed.

Lemma hoare_pure {S A} (phi : Prop) (P : S -> Prop) (c : M S A) Q E :
  (phi -> hoare P c Q E) -> hoare (fun s => P s /\ phi) c Q E.
Proof. intros H s [Hs Hphi]. apply (H Hphi s Hs). Qed.

(** The loop rule: the invariant is indexed by the elements already
    processed. *)
Lemma hoare_for_each {S A} (I : list A -> S -> Prop) (l : list A)
    (body : A -> M S unit) E :
  (forall done a rest, l = done ++ a :: rest ->
     hoare (I done) (body a) (fun _ => I (done ++ [a])) E) ->
  hoare (I []) (for_each l body) (fun _ => I l) E.
Proof.
  intros Hbody.
  assert (Hgen : forall rest done, l = done ++ rest ->
            hoare (I done) (for_each rest body) (fun _ => I l) E).
  { induction rest as [| a rest IH]; intros done Hl.
    - rewrite app_nil_r in Hl. apply hoare_ret. intros s Hs. rewrite Hl. exact Hs.
    - simpl. eapply hoare_bind.
      + apply (Hbody done a rest Hl).
      + intros []. apply IH. rewrite <- app_assoc. exact Hl. }
  apply (Hgen l []). reflexivity.
Qed.

(** A triple that excludes exceptions yields a run that returns. *)
Lemma hoare_run {S A} (P : S -> Prop) (c : M S A) (Q : A -> S -> Prop) (s : S) :
  hoare P c Q never -> P s -> exists a s', c s = (Ok a, s') /\ Q a s'.
Proof.
  intros H Hs. specialize (H s Hs). destruct (c s) as [[a | e] s'].
  - eauto.
  - destruct H.
Qed.






(** ** Python primitives *)

Lemma py_div_nonzero a b : b <> 0 -> py_div a b = Ok (a / b).
Proof. intros Hb. unfold py_div. destruct (Req_dec_T b 0); [contradiction | reflexivity]. Qed.

Lemma py_index_valid {A} (l : list A) (i : Z) (a : A) :
  py_index l i = Ok a -> py_valid_index (length l) i.
Proof.
  unfold py_index, py_valid_index.
  destruct (i <? 0)%Z eqn:Hi;
    destruct (_ && _) eqn:Hb; try discriminate; intros _; lia.
Qed.

(** [int] of a non-negative float is its floor. *)
Lemma int_of_float_unique (x : R) (n : Z) :
  0 <= x -> IZR n <= x < IZR n + 1 -> int_of_float x = n.
Proof.
  intros Hx Hn. unfold int_of_float.
  destruct (Rle_dec 0 x) as [_ | Hneg]; [| contradiction].
  symmetry. apply Int_part_spec. lra.
Qed.

Lemma int_of_float_zero (x : R) : x = 0 -> int_of_float x = 0%Z.
Proof. intros ->. apply int_of_float_unique; simpl; lra. Qed.

Lemma int_of_float_range (x : R) (n : Z) :
  0 <= x < IZR n + 1 -> (0 <= int_of_float x <= n)%Z.
Proof.
  intros [H0 Hn]. unfold int_of_float.
  destruct (Rle_dec 0 x) as [_ | Hneg]; [| contradiction].
  destruct (base_Int_part x) as [Hlo Hhi].
  split.
  - assert (H : IZR (-1) < IZR (Int_part x)) by (simpl; lra).
    apply lt_IZR in H. lia.
  - assert (H : IZR (Int_part x) < IZR (n + 1)) by (rewrite plus_IZR; simpl; lra).
    apply lt_IZR in H. lia.
Qed.

(** Truncation goes toward zero on both sides. *)
Example int_of_float_positive : int_of_float 2.5 = 2%Z.
Proof. apply int_of_float_unique; simpl; lra. Qed.

Example int_of_float_negative : int_of_float (- 2.5) = (-2)%Z.
Proof.
  unfold int_of_float. destruct (Rle_dec 0 (- 2.5)) as [H | _]; [lra |].
  rewrite <- (Int_part_spec (- - 2.5) 2); [reflexivity | simpl; lra].
Qed.

Example py_index_from_the_end : py_index [10; 20; 30]%Z (-1) = Ok 30%Z.
Proof. reflexivity. Qed.

Example py_index_past_the_end : py_index [10; 20; 30]%Z 3 = Raise IndexError.
Proof. reflexivity. Qed.

Example py_index_before_the_start : py_index [10; 20; 30]%Z (-4) = Raise IndexError.
Proof. reflexivity. Qed.

Example py_range2_fan : py_range2 1 (4 - 1) = [1; 2]%Z.
Proof. reflexivity. Qed.

Example split_ws_face_line :
  split_ws (line "f 1/1/1  2/2/2 3/3/3") = ["f"; "1/1/1"; "2/2/2"; "3/3/3"]%string.
Proof. reflexivity. Qed.

Example split_char_token : split_char "/" "7/1/2" = ["7"; "1"; "2"]%string.
Proof. reflexivity. Qed.

Example split_char_plain : split_char "/" "7" = ["7"]%string.
Proof. reflexivity. Qed.

Example decimal_int_relative : decimal_int "-3" = Some (-3)%Z.
Proof. reflexivity. Qed.

Example decimal_int_malformed : decimal_int "1.5" = None.
Proof. reflexivity. Qed.

Lemma length_py_range n : length (py_range n) = Z.to_nat n.
Proof. unfold py_range, py_range2. rewrite length_map, length_seq. f_equal. lia. Qed.

Lemma in_py_range n k : In k (py_range n) <-> (0 <= k < n)%Z.
Proof.
  unfold py_range, py_range2. rewrite in_map_iff. split.
  - intros [x [<- Hx]]. apply in_seq in Hx. lia.
  - intros Hk. exists (Z.to_nat k). split; [lia |]. apply in_seq. lia.
Qed.

Lemma flat_map_snoc {A B} (f : A -> list B) (l : list A) (a : A) :
  flat_map f (l ++ [a]) = flat_map f l ++ f a.
Proof. rewrite flat_map_app. simpl. rewrite app_nil_r. reflexivity. Qed.

Lemma length_flat_map_const {A B} (f : A -> list B) (l : list A) (k : nat) :
  (forall a, In a l -> length (f a) = k) -> length (flat_map f l) = (length l * k)%nat.
Proof.
  induction l as [| a l IH]; intros H; simpl; [reflexivity |].
  rewrite length_app, H, IH; [reflexivity | intros b Hb; apply H; right; exact Hb | left; reflexivity ].
Qed.

Lemma min_of_le (l : list R) : forall x, min_of x l <= x.
Proof.
  unfold min_of. induction l as [| a l IH]; intros x; simpl; [lra |].
  specialize (IH (Rmin x a)). pose proof (Rmin_l x a). lra.
Qed.

Lemma max_of_ge (l : list R) : forall x, x <= max_of x l.
Proof.
  unfold max_of. induction l as [| a l IH]; intros x; simpl; [lra |].
  specialize (IH (Rmax x a)). pose proof (Rmax_l x a). lra.
Qed.

Lemma max3_ge_l (a b c : R) : a <= max3 a b c.
Proof.
  unfold max3. pose proof (Rmax_l (Rmax a b) c). pose proof (Rmax_l a b). lra.
Qed.

Lemma max3_same (a : R) : max3 a a a = a.
Proof. unfold max3. rewrite (Rmax_left a a) by lra. apply Rmax_left. lra. Qed.

(** ** Mesh: bounding box, cube and sphere *)

Lemma calculate_bounding_box_seqs V N F C E :
  hoare (fun w => seqs w = (V, N, F, C)) calculate_bounding_box
    (fun _ w => seqs w = (V, N, F, C)) E.
Proof.
  intros w Hw. unfold calculate_bounding_box, bind, gets.
  destruct (vertices (self w)); cbn; exact Hw.
Qed.

Lemma calculate_bounding_box_ordered (w : World) :
  let b := bounding_box (self (snd (calculate_bounding_box w))) in
  vx (fst b) <= vx (snd b).
Proof.
  unfold calculate_bounding_box, bind, gets.
  destruct (vertices (self w)) as [| v rest]; cbn.
  - unfold vx. simpl. lra.
  - pose proof (min_of_le (map vx rest) (vx v)). pose proof (max_of_ge (map vx rest) (vx v)).
    unfold vx in *. simpl. lra.
Qed.

Lemma calculate_bounding_box_empty (w : World) :
  vertices (self w) = [] ->
  bounding_box (self (snd (calculate_bounding_box w))) = default_bounding_box.
Proof.
  intros H. unfold calculate_bounding_box, bind, gets. rewrite H. reflexivity.
Qed.

Lemma generate_cube_run (w : World) :
  exists w', generate_cube w = (Ok tt, w') /\
    seqs w' = (cube_vertices, cube_normals, cube_faces, cube_colors).
Proof. eexists. split; reflexivity. Qed.

(** The cube has one normal and one colour per face. *)
Lemma generate_cube_parallel (w : World) :
  parallel_sequences (self (snd (generate_cube w))).
Proof. split; reflexivity. Qed.

(** Every face of the cube is a triple of indices into its vertices. *)
Lemma generate_cube_valid_faces (w : World) :
  let m := self (snd (generate_cube w)) in
  Forall (valid_face (length (vertices m))) (faces m).
Proof.
  cbn. unfold cube_faces, valid_face, valid_index.
  repeat (constructor; [split; [reflexivity | repeat constructor; cbn; lia] |]).
  constructor.
Qed.

Lemma random_color_step V N F C E :
  hoare (fun w => seqs w = (V, N, F, C)) random_color
    (fun _ w => exists c, seqs w = (V, N, F, C ++ [c])) E.
Proof.
  intros w Hw. cbn. unfold seqs in *. cbn in *. inversion Hw; subst.
  eexists. reflexivity.
Qed.

Lemma colors_loop {A} (l : list A) V N F E :
  hoare (fun w => seqs w = (V, N, F, []))
    (for_each l (fun _ => random_color))
    (fun _ w => exists C, length C = length l /\ seqs w = (V, N, F, C)) E.
Proof.
  eapply hoare_weaken.
  - apply (hoare_for_each
      (fun done w => exists C, length C = length done /\ seqs w = (V, N, F, C))).
    intros done a rest _ w [C [HC Hw]].
    pose proof (random_color_step V N F C E w Hw) as H.
    destruct (random_color w) as [[[] | e] w']; [| exact H].
    destruct H as [c Hc]. exists (C ++ [c]). split; [| exact Hc].
    rewrite !length_app, HC. reflexivity.
  - intros w Hw. exists []. auto.
  - intros [] w H. exact H.
Qed.

Lemma sphere_vertex_step r i j V N F C E :
  r <> 0%Z ->
  hoare (fun w => seqs w = (V, N, F, C))
    (lon <- lift (py_div (2 * PI * IZR j) (IZR r)) ;;
     let sin_lon := sin lon in
     let cos_lon := cos lon in
     let x := sin (PI * IZR i / IZR r) * cos_lon in
     let y := cos (PI * IZR i / IZR r) in
     let z := sin (PI * IZR i / IZR r) * sin_lon in
     append_vertex (x, y, z) ;; append_normal (x, y, z))
    (fun _ w => seqs w = (V ++ [sphere_point r i j], N ++ [sphere_point r i j], F, C)) E.
Proof.
  intros Hr w Hw. unfold bind, lift.
  rewrite py_div_nonzero by (apply not_0_IZR; exact Hr).
  cbn. unfold seqs in *. cbn in *. inversion Hw; subst. reflexivity.
Qed.

Lemma sphere_ring r i V N F C E :
  r <> 0%Z ->
  hoare (fun w => seqs w = (V, N, F, C))
    (lat <- lift (py_div (PI * IZR i) (IZR r)) ;;
     let sin_lat := sin lat in
     let cos_lat := cos lat in
     for_each (py_range (r + 1)) (fun j =>
       lon <- lift (py_div (2 * PI * IZR j) (IZR r)) ;;
       let sin_lon := sin lon in
       let cos_lon := cos lon in
       let x := sin_lat * cos_lon in
       let y := cos_lat in
       let z := sin_lat * sin_lon in
       append_vertex (x, y, z) ;; append_normal (x, y, z)))
    (fun _ w => seqs w = (V ++ map (sphere_point r i) (py_range (r + 1)),
                          N ++ map (sphere_point r i) (py_range (r + 1)), F, C)) E.
Proof.
  intros Hr.
  eapply hoare_bind_lift; [apply py_div_nonzero, not_0_IZR, Hr |].
  cbv zeta.
  eapply hoare_weaken.
  - apply (hoare_for_each
      (fun done w => seqs w = (V ++ map (sphere_point r i) done,
                               N ++ map (sphere_point r i) done, F, C))).
    intros done j rest _.
    eapply hoare_weaken; [apply (sphere_vertex_step r i j) with (E := E); exact Hr | | ].
    + intros w Hw. exact Hw.
    + intros [] w Hw. cbn beta in Hw. rewrite !map_app, !app_assoc. exact Hw.
  - intros w Hw. cbn. rewrite !app_nil_r. exact Hw.
  - intros [] w Hw. exact Hw.
Qed.

Lemma sphere_vertices_loop r F C E :
  r <> 0%Z ->
  hoare (fun w => seqs w = ([], [], F, C))
    (for_each (py_range (r + 1)) (fun i =>
      lat <- lift (py_div (PI * IZR i) (IZR r)) ;;
      let sin_lat := sin lat in
      let cos_lat := cos lat in
      for_each (py_range (r + 1)) (fun j =>
        lon <- lift (py_div (2 * PI * IZR j) (IZR r)) ;;
        let sin_lon := sin lon in
        let cos_lon := cos lon in
        let x := sin_lat * cos_lon in
        let y := cos_lat in
        let z := sin_lat * sin_lon in
        append_vertex (x, y, z) ;; append_normal (x, y, z))))
    (fun _ w => seqs w = (sphere_points r, sphere_points r, F, C)) E.
Proof.
  intros Hr.
  apply (hoare_for_each
    (fun done w =>
       seqs w = (flat_map (fun i => map (sphere_point r i) (py_range (r + 1))) done,
                 flat_map (fun i => map (sphere_point r i) (py_range (r + 1))) done,
                 F, C))).
  intros done i rest _.
  eapply hoare_weaken; [apply (sphere_ring r i) with (E := E); exact Hr | | ].
  - intros w Hw. exact Hw.
  - intros [] w Hw. rewrite !flat_map_snoc. exact Hw.
Qed.

Lemma sphere_cell_step r i j V N F C E :
  hoare (fun w => seqs w = (V, N, F, C))
    (let v1 := (i * (r + 1) + j)%Z in
     let v2 := (v1 + 1)%Z in
     let v3 := (v1 + (r + 1))%Z in
     let v4 := (v2 + (r + 1))%Z in
     append_face [v1; v2; v3] ;; append_face [v2; v4; v3])
    (fun _ w => seqs w = (V, N, F ++ sphere_cell r i j, C)) E.
Proof.
  intros w Hw. cbn. unfold seqs in *. cbn in *. inversion Hw; subst.
  rewrite <- app_assoc. reflexivity.
Qed.

Lemma sphere_faces_loop r V N C E :
  hoare (fun w => seqs w = (V, N, [], C))
    (for_each (py_range r) (fun i =>
      for_each (py_range r) (fun j =>
        let v1 := (i * (r + 1) + j)%Z in
        let v2 := (v1 + 1)%Z in
        let v3 := (v1 + (r + 1))%Z in
        let v4 := (v2 + (r + 1))%Z in
        append_face [v1; v2; v3] ;; append_face [v2; v4; v3])))
    (fun _ w => seqs w = (V, N, sphere_faces r, C)) E.
Proof.
  apply (hoare_for_each
    (fun done w =>
       seqs w = (V, N, flat_map (fun i => flat_map (sphere_cell r i) (py_range r)) done, C))).
  intros done i rest _.
  eapply hoare_weaken.
  - apply (hoare_for_each
      (fun done' w =>
         seqs w = (V, N, flat_map (fun i => flat_map (sphere_cell r i) (py_range r)) done
                           ++ flat_map (sphere_cell r i) done', C))).
    intros done' j rest' _.
    eapply hoare_weaken; [apply (sphere_cell_step r i j) with (E := E) | | ].
    + intros w Hw. exact Hw.
    + intros [] w Hw. rewrite flat_map_snoc, app_assoc. exact Hw.
  - intros w Hw. cbn. rewrite app_nil_r. exact Hw.
  - intros [] w Hw. rewrite flat_map_snoc. exact Hw.
Qed.

(** What the sphere builder leaves in the mesh, for any resolution other
    than zero: the same points as vertices and as normals, two triangles per
    cell, and one colour per face. *)
Lemma generate_sphere_seqs r :
  r <> 0%Z ->
  hoare (fun _ => True) (generate_sphere r)
    (fun _ w => exists C, length C = length (sphere_faces r) /\
                          seqs w = (sphere_points r, sphere_points r, sphere_faces r, C))
    never.
Proof.
  intros Hr. unfold generate_sphere.
  unfold set_vertices, set_faces, set_normals, set_colors, set_vertex_cache, on_self.
  do 5 apply hoare_modify_seq.
  eapply hoare_bind.
  { eapply hoare_weaken; [apply sphere_vertices_loop with (F := []) (C := []); exact Hr | | ].
    - intros w (w4 & (w3 & (w2 & (w1 & (w0 & _ & ->) & ->) & ->) & ->) & ->). reflexivity.
    - intros a w H. exact H. }
  intros [].
  eapply hoare_bind; [apply sphere_faces_loop |]. intros [].
  apply hoare_gets_seq. intros n.
  eapply hoare_pre with
    (P' := fun w => seqs w = (sphere_points r, sphere_points r, sphere_faces r, [])
                    /\ n = length (sphere_faces r)).
  - apply hoare_pure. intros ->.
    eapply hoare_bind; [apply colors_loop |]. intros [].
    apply hoare_intro_ex. intros C. rewrite length_seq.
    apply hoare_pure_l. intros HC.
    eapply hoare_weaken; [apply calculate_bounding_box_seqs | | ].
    + intros w Hw. exact Hw.
    + intros [] w Hw. cbn beta. exists C. auto.
  - intros w H. cbn beta in H. destruct H as [Hw Hn]. split; [exact Hw |].
    rewrite Hn. unfold seqs in Hw. congruence.
Qed.

Lemma length_sphere_points r :
  (0 <= r)%Z -> Z.of_nat (length (sphere_points r)) = ((r + 1) * (r + 1))%Z.
Proof.
  intros Hr. unfold sphere_points.
  rewrite (length_flat_map_const _ _ (Z.to_nat (r + 1))).
  - rewrite length_py_range. lia.
  - intros i _. rewrite length_map. apply length_py_range.
Qed.

Lemma length_sphere_faces r :
  (0 <= r)%Z -> Z.of_nat (length (sphere_faces r)) = (2 * r * r)%Z.
Proof.
  intros Hr. unfold sphere_faces.
  rewrite (length_flat_map_const _ _ (Z.to_nat r * 2)%nat).
  - rewrite length_py_range. lia.
  - intros i _. rewrite (length_flat_map_const _ _ 2%nat).
    + rewrite length_py_range. reflexivity.
    + reflexivity.
Qed.

(** Every point of the sphere lies at distance one from the origin. *)
Lemma sphere_point_unit r i j :
  let p := sphere_point r i j in vx p ^ 2 + vy p ^ 2 + vz p ^ 2 = 1.
Proof.
  unfold sphere_point. cbn. 
  set (lat := PI * IZR i / IZR r). set (lon := 2 * PI * IZR j / IZR r).
  pose proof (sin2_cos2 lat) as H1. pose proof (sin2_cos2 lon) as H2.
  unfold Rsqr in *. nra.
Qed.

Lemma norm_sphere_point r i j : norm (sphere_point r i j) = 1.
Proof.
  unfold norm. rewrite (sphere_point_unit r i j). apply sqrt_1.
Qed.

Lemma sphere_points_unit r : Forall (fun p => norm p = 1) (sphere_points r).
Proof.
  apply List.Forall_forall. intros p Hp. unfold sphere_points in Hp.
  apply in_flat_map in Hp. destruct Hp as [i [_ Hp]].
  apply in_map_iff in Hp. destruct Hp as [j [<- _]]. apply norm_sphere_point.
Qed.

Lemma sphere_faces_valid r :
  (0 <= r)%Z -> Forall (valid_face (length (sphere_points r))) (sphere_faces r).
Proof.
  intros Hr. apply List.Forall_forall. intros f Hf. unfold sphere_faces in Hf.
  apply in_flat_map in Hf. destruct Hf as [i [Hi Hf]].
  apply in_flat_map in Hf. destruct Hf as [j [Hj Hf]].
  apply in_py_range in Hi. apply in_py_range in Hj.
  assert (Hb : forall k, (0 <= k <= i * (r + 1) + j + 1 + (r + 1))%Z ->
                valid_index (length (sphere_points r)) k).
  { intros k Hk. unfold valid_index. rewrite length_sphere_points by exact Hr. nia. }
  unfold sphere_cell in Hf. simpl in Hf.
  destruct Hf as [<- | [<- | []]]; (split; [reflexivity |]);
    repeat constructor; apply Hb; nia.
Qed.

(** Every face of the sphere is a triple of indices into its vertices. *)
Lemma generate_sphere_valid_faces (r : Z) (w : World) :
  (1 <= r)%Z ->
  exists w', generate_sphere r w = (Ok tt, w') /\
    Forall (valid_face (length (vertices (self w')))) (faces (self w')).
Proof.
  intros Hr.
  destruct (hoare_run _ _ _ w (generate_sphere_seqs r ltac:(lia)) I)
    as ([] & w' & Hrun & C & HC & Hw).
  exists w'. unfold seqs in Hw. injection Hw as HV HN HF HCs.
  split; [exact Hrun |]. rewrite HV, HF. apply sphere_faces_valid. lia.
Qed.

(** For no resolution [r >= 1] does the sphere have as many normals as
    faces: [(r + 1)^2 = 2 r^2] has no integer solution. *)
Lemma generate_sphere_never_parallel (r : Z) (w : World) :
  (1 <= r)%Z ->
  exists w', generate_sphere r w = (Ok tt, w') /\
    length (normals (self w')) <> length (faces (self w')).
Proof.
  intros Hr.
  destruct (hoare_run _ _ _ w (generate_sphere_seqs r ltac:(lia)) I)
    as ([] & w' & Hrun & C & HC & Hw).
  exists w'. unfold seqs in Hw. injection Hw as HV HN HF HCs.
  split; [exact Hrun |]. rewrite HN, HF. intros Heq.
  pose proof (length_sphere_points r ltac:(lia)) as Hp.
  pose proof (length_sphere_faces r ltac:(lia)) as Hf.
  rewrite Heq, Hf in Hp.
  assert (Hsq : ((r - 1) * (r - 1) = 2)%Z) by lia.
  assert (r = 1 \/ r = 2 \/ 3 <= r)%Z as [-> | [-> | H3]] by lia; try lia. nia.
Qed.

(** Claim C8.  For every resolution [r >= 1] the sphere builder returns
    normally, having produced exactly [(r + 1) * (r + 1)] vertices and
    exactly [2 * r * r] faces, and every stored normal has Euclidean length
    one.  Floats are read as reals, so the length is exactly one; the
    tolerance of the claim only has to absorb rounding. *)
Theorem generate_sphere_counts (r : Z) (w : World) :
  (1 <= r)%Z ->
  exists w', generate_sphere r w = (Ok tt, w') /\
    Z.of_nat (length (vertices (self w'))) = ((r + 1) * (r + 1))%Z /\
    Z.of_nat (length (faces (self w'))) = (2 * r * r)%Z /\
    Forall (fun n => norm n = 1) (normals (self w')).
Proof.
  intros Hr.
  destruct (hoare_run _ _ _ w (generate_sphere_seqs r ltac:(lia)) I)
    as ([] & w' & Hrun & C & HC & Hw).
  exists w'. unfold seqs in Hw. injection Hw as HV HN HF HCs.
  split; [exact Hrun |]. rewrite HV, HN, HF.
  repeat split.
  - apply length_sphere_points. lia.
  - apply length_sphere_faces. lia.
  - apply sphere_points_unit.
Qed.

(** The statement of C8 at the resolution the viewer uses. *)
Lemma generate_sphere_counts_witness :
  exists w', generate_sphere 20 still_world = (Ok tt, w') /\
    Z.of_nat (length (vertices (self w'))) = ((20 + 1) * (20 + 1))%Z /\
    Z.of_nat (length (faces (self w'))) = (2 * 20 * 20)%Z /\
    Forall (fun n => norm n = 1) (normals (self w')).
Proof. apply generate_sphere_counts. lia. Defined.

(** Claim C1, where the code departs from it.  Claim: after every
    successful build the mesh has as many normals as faces and as many faces
    as colours.  With the resolution the viewer uses, 20, the sphere builder
    returns normally with 441 normals (it stores one per vertex) for 800
    faces and 800 colours, so the sequences are not parallel.  The cube and
    a successful import do keep them parallel ([generate_cube_parallel],
    [load_from_obj_success]). *)
Theorem generate_sphere_normals_per_vertex (w : World) :
  exists w', generate_sphere 20 w = (Ok tt, w') /\
    length (normals (self w')) = 441%nat /\
    length (faces (self w')) = 800%nat /\
    length (colors (self w')) = 800%nat /\
    ~ parallel_sequences (self w').
Proof.
  destruct (hoare_run _ _ _ w (generate_sphere_seqs 20 ltac:(lia)) I)
    as ([] & w' & Hrun & C & HC & Hw).
  exists w'. unfold seqs in Hw. injection Hw as HV HN HF HCs.
  pose proof (length_sphere_points 20 ltac:(lia)) as Hp.
  pose proof (length_sphere_faces 20 ltac:(lia)) as Hf.
  split; [exact Hrun |]. unfold parallel_sequences. rewrite HN, HF, HCs, HC.
  repeat split; try lia.
Qed.

(** ** Mesh: import from a file *)

Section ImporterFacts.

Variable read_lines : string -> option (list string).
Variable float_of_string : string -> option R.
Variable int_of_string : string -> option Z.
Variable b0 : vec3 * vec3.

Lemma parsing_failed w : parsing b0 w -> failed_import b0 w.
Proof. intros (_ & H & _). exact H. Qed.

Lemma append_vertex_parsing v E :
  hoare (parsing b0) (append_vertex v) (fun _ => parsing b0) E.
Proof. intros w H. exact H. Qed.

Lemma append_face_parsing f E :
  length f = 3%nat ->
  hoare (parsing b0) (append_face f) (fun _ => parsing b0) E.
Proof.
  intros Hf w (HN & HF & Hfs). cbn. split; [exact HN |]. split; [exact HF |].
  cbn. apply Forall_app. split; [exact Hfs | constructor; [exact Hf | constructor]].
Qed.

Lemma read_vertex_line_parsing line :
  hoare (parsing b0) (read_vertex_line float_of_string line)
    (fun _ => parsing b0) (fun _ => failed_import b0).
Proof.
  intros w H. unfold read_vertex_line.
  destruct (4 <=? _)%nat; [| exact H].
  unfold bind, lift.
  repeat match goal with
         | |- context [match ?r with Ok _ => _ | Raise _ => _ end] =>
             destruct r; [| apply parsing_failed, H]
         end.
  exact H.
Qed.

Lemma read_face_vertices_pure tokens : forall acc (w : World),
  match read_face_vertices int_of_string tokens acc w with
  | (Ok fv, w') => w' = w /\ length fv = (length acc + length tokens)%nat
  | (Raise _, w') => w' = w
  end.
Proof.
  induction tokens as [| t tokens IH]; intros acc w; simpl.
  - split; [reflexivity | lia].
  - unfold bind, lift.
    destruct (py_index _ 0) as [s | e]; [| reflexivity].
    destruct (py_int int_of_string s) as [n | e]; [| reflexivity].
    specialize (IH (acc ++ [(n - 1)%Z]) w).
    destruct (read_face_vertices _ _ _ w) as [[fv | e] w']; [| exact IH].
    destruct IH as [-> Hlen]. split; [reflexivity |]. rewrite Hlen, length_app. simpl. lia.
Qed.

Lemma add_face_parsing fv :
  (3 <= length fv)%nat ->
  hoare (parsing b0) (add_face fv) (fun _ => parsing b0) (fun _ => failed_import b0).
Proof.
  intros Hlen. unfold add_face.
  destruct (3 <? length fv)%nat eqn:Hgt.
  - eapply hoare_weaken.
    + apply (hoare_for_each (fun _ => parsing b0)).
      intros done j rest _ w H. unfold bind, lift.
      repeat match goal with
             | |- context [match ?r with Ok _ => _ | Raise _ => _ end] =>
                 destruct r; [| apply parsing_failed, H]
             end.
      match goal with
      | |- context [append_face ?f] =>
          exact (append_face_parsing f (fun _ => failed_import b0) eq_refl w H)
      end.
    + auto.
    + auto.
  - apply append_face_parsing. apply Nat.ltb_ge in Hgt. lia.
Qed.

Lemma read_face_line_parsing line :
  hoare (parsing b0) (read_face_line int_of_string line)
    (fun _ => parsing b0) (fun _ => failed_import b0).
Proof.
  intros w H. unfold read_face_line.
  destruct (4 <=? _)%nat eqn:Hparts; [| exact H].
  apply Nat.leb_le in Hparts.
  unfold bind.
  pose proof (read_face_vertices_pure (skipn 1 (split_ws line)) [] w) as Hp.
  destruct (read_face_vertices _ _ _ w) as [[fv | e] w'].
  - destruct Hp as [-> Hfv]. apply add_face_parsing; [| exact H].
    rewrite Hfv, length_skipn. simpl. lia.
  - subst w'. apply parsing_failed, H.
Qed.

Lemma read_line_parsing line :
  hoare (parsing b0) (read_line float_of_string int_of_string line)
    (fun _ => parsing b0) (fun _ => failed_import b0).
Proof.
  unfold read_line.
  destruct (startswith "v " line); [apply read_vertex_line_parsing |].
  destruct (startswith "f " line); [apply read_face_line_parsing |].
  apply hoare_ret. auto.
Qed.

Lemma importing_failed V N F w : importing b0 V N F w -> failed_import b0 w.
Proof.
  intros (Hs & Hc & Hb). unfold seqs in Hs. injection Hs as _ _ _ HC.
  split; [exact HC | split; assumption].
Qed.

Lemma add_normal_step V N F f :
  length f = 3%nat ->
  hoare (importing b0 V N F) (add_normal f)
    (fun _ w => exists n, importing b0 V (N ++ [n]) F w /\
                          Forall (py_valid_index (length V)) f)
    (fun _ => failed_import b0).
Proof.
  intros Hf w H.
  destruct f as [| i1 [| i2 [| i3 [| ? ?]]]]; try discriminate Hf.
  pose proof (importing_failed _ _ _ _ H) as Hfail.
  destruct H as (Hs & Hc & Hb). unfold seqs in Hs. injection Hs as HV HN HF HC.
  unfold add_normal. cbn. rewrite HV. unfold bind, lift.
  change (py_index [i1; i2; i3] 0) with (Ok i1).
  change (py_index [i1; i2; i3] 1) with (Ok i2).
  change (py_index [i1; i2; i3] 2) with (Ok i3).
  cbv beta iota.
  destruct (py_index V i1) as [v1 | e] eqn:H1; [| exact Hfail].
  destruct (py_index V i2) as [v2 | e] eqn:H2; [| exact Hfail].
  destruct (py_index V i3) as [v3 | e] eqn:H3; [| exact Hfail].
  cbn. exists (triangle_normal v1 v2 v3). split.
  - unfold importing, seqs. cbn. rewrite HV, HN, HF, HC. auto.
  - repeat constructor; eapply py_index_valid; eassumption.
Qed.

Lemma normals_loop V F :
  Forall (fun f : face => length f = 3%nat) F ->
  hoare (importing b0 V [] F) (for_each F add_normal)
    (fun _ w => exists N, length N = length F /\ importing b0 V N F w /\
                          Forall (py_valid_face (length V)) F)
    (fun _ => failed_import b0).
Proof.
  intros H3.
  eapply hoare_weaken.
  - apply (hoare_for_each
      (fun done w => exists N, length N = length done /\ importing b0 V N F w /\
                               Forall (py_valid_face (length V)) done)).
    intros done f rest HF.
    apply hoare_intro_ex. intros N. apply hoare_pure_l. intros HN.
    assert (Hf : length f = 3%nat).
    { rewrite HF in H3. apply Forall_app in H3. destruct H3 as [_ H3].
      inversion H3; assumption. }
    intros w [Hw Hdone].
    pose proof (add_normal_step V N F f Hf w Hw) as Hstep.
    destruct (add_normal f w) as [[[] | e] w']; [| exact Hstep].
    destruct Hstep as (n & Hw' & Hvalid).
    exists (N ++ [n]). split; [rewrite !length_app, HN; reflexivity |].
    split; [exact Hw' |].
    apply Forall_app. split; [exact Hdone |].
    constructor; [split; assumption | constructor].
  - intros w Hw. exists []. split; [reflexivity |]. split; [exact Hw | constructor].
  - intros [] w Hw. exact Hw.
Qed.

(** The body of the [try]: if it returns, the mesh holds one normal and one
    colour per face and every face is a triple of indices Python accepts;
    if it raises, no colour has been generated and the bounding box is
    still the old one. *)
Lemma load_body_spec file_path :
  hoare (fun w => bounding_box (self w) = b0)
    (load_body read_lines float_of_string int_of_string file_path)
    (fun _ => imported)
    (fun _ => failed_import b0).
Proof.
  unfold load_body.
  unfold set_vertices, set_faces, set_normals at 1, set_colors at 1, set_vertex_cache, on_self.
  do 5 apply hoare_modify_seq.
  eapply hoare_pre with (P' := parsing b0).
  2:{ intros w (w4 & (w3 & (w2 & (w1 & (w0 & Hb & ->) & ->) & ->) & ->) & ->).
      repeat split; try reflexivity; [exact Hb | constructor]. }
  eapply hoare_bind with (R := fun lines => parsing b0).
  { apply hoare_lift. intros w Hw. destruct (py_open _ _); [exact Hw | apply parsing_failed, Hw]. }
  intros lines.
  eapply hoare_bind with (R := fun _ => parsing b0).
  { eapply hoare_weaken.
    - apply (hoare_for_each (fun _ => parsing b0)). intros done line rest _.
      apply read_line_parsing.
    - auto.
    - auto. }
  intros [].
  eapply hoare_bind with (R := fun _ => parsing b0).
  { apply hoare_modify. intros w (HN & (HC & Hc & Hb) & H3).
    repeat split; assumption. }
  intros [].
  apply hoare_gets_seq. intros fs.
  eapply hoare_pre with
    (P' := fun w => exists V, importing b0 V [] fs w /\
                              Forall (fun f : face => length f = 3%nat) fs).
  2:{ intros w [(HN & (HC & Hc & Hb) & H3) ->]. exists (vertices (self w)).
      split; [| exact H3]. unfold importing, seqs. rewrite HN, HC. auto. }
  apply hoare_intro_ex. intros V. apply hoare_pure. intros H3.
  eapply hoare_bind; [apply normals_loop; exact H3 |]. intros [].
  apply hoare_intro_ex. intros N. apply hoare_pure_l. intros HN.
  eapply hoare_pre with
    (P' := fun w => seqs w = (V, N, fs, []) /\ Forall (py_valid_face (length V)) fs).
  2:{ intros w [(Hs & _) Hv]. auto. }
  apply hoare_pure. intros Hv.
  eapply hoare_bind with (R := fun _ w => seqs w = (V, N, fs, [])).
  { apply hoare_modify. intros w Hw. unfold seqs in *. cbn.
    injection Hw as -> -> -> _. reflexivity. }
  intros [].
  apply hoare_gets_seq. intros n.
  eapply hoare_pre with (P' := fun w => seqs w = (V, N, fs, []) /\ n = length fs).
  2:{ intros w [Hw ->]. split; [exact Hw |]. unfold seqs in Hw. congruence. }
  apply hoare_pure. intros ->.
  eapply hoare_bind; [apply colors_loop |]. intros [].
  apply hoare_intro_ex. intros C. rewrite length_seq. apply hoare_pure_l. intros HC.
  eapply hoare_weaken; [apply calculate_bounding_box_seqs | | ].
  - intros w Hw. exact Hw.
  - intros [] w Hw. exists V, N, fs, C. auto.
Qed.

End ImporterFacts.

(** Whatever the file holds, the importer returns a Boolean. *)
Lemma load_from_obj_spec read_lines float_of_string int_of_string file_path (w : World) :
  match load_from_obj read_lines float_of_string int_of_string file_path w with
  | (Ok true, w') => imported w'
  | (Ok false, w') => failed_import (bounding_box (self w)) w'
  | (Raise _, _) => False
  end.
Proof.
  unfold load_from_obj, try_bool.
  pose proof (load_body_spec read_lines float_of_string int_of_string
                (bounding_box (self w)) file_path w eq_refl) as H.
  destruct (load_body _ _ _ _ w) as [[[] | e] w']; exact H.
Qed.

Lemma imported_parallel (w : World) : imported w -> parallel_sequences (self w).
Proof.
  intros (V & N & F & C & Hs & HN & HC & _). unfold seqs in Hs.
  injection Hs as HV HN' HF HC'. unfold parallel_sequences.
  rewrite HN', HF, HC'. split; congruence.
Qed.

(** A successful import leaves one normal and one colour per face, and
    faces that are triples of indices Python accepts. *)
Lemma load_from_obj_success read_lines float_of_string int_of_string
    (file_path : string) (w w' : World) :
  load_from_obj read_lines float_of_string int_of_string file_path w = (Ok true, w') ->
  parallel_sequences (self w') /\
  Forall (py_valid_face (length (vertices (self w')))) (faces (self w')).
Proof.
  intros Hrun.
  pose proof (load_from_obj_spec read_lines float_of_string int_of_string file_path w) as H.
  rewrite Hrun in H. split; [apply imported_parallel, H |].
  destruct H as (V & N & F & C & Hs & _ & _ & Hv). unfold seqs in Hs.
  injection Hs as HV _ HF _. rewrite HV, HF. exact Hv.
Qed.




(** Claim C4, where the code departs from it.  Claim: after a successful
    build every face is a triple of indices [i] with [0 <= i < len(vertices)].
    A file with four vertices and the face line [f -1 -2 -3] is imported
    with success, and the mesh then holds the face [(-2, -3, -4)]: the
    importer subtracts one from every index and never checks the lower
    bound, and Python reads a negative index from the end of the list.  The
    cube and the sphere do satisfy the claim ([generate_cube_valid_faces],
    [generate_sphere_valid_faces]). *)
Theorem load_from_obj_accepts_negative_index :
  let res := import_lines relative_index_obj cube_world in
  fst res = Ok true /\
  length (vertices (self (snd res))) = 4%nat /\
  faces (self (snd res)) = [[-2; -3; -4]]%Z /\
  ~ Forall (valid_face (length (vertices (self (snd res))))) (faces (self (snd res))).
Proof.
  cbv zeta. split; [vm_compute; reflexivity |].
  split; [vm_compute; reflexivity |].
  split; [vm_compute; reflexivity |].
  replace (faces _) with [[-2; -3; -4]%Z] by (vm_compute; reflexivity).
  intros H. inversion H as [| f fs [_ Hf] _]. inversion Hf as [| i l Hi _].
  unfold valid_index in Hi. lia.
Qed.

(** ** Camera *)

(** The state [auto_position] leaves: eight attributes of the camera are
    assigned, the others and the mesh are as before. *)
Lemma auto_position_run (c : Camera.t) (m : Mesh) :
  Camera.auto_position (Camera.mkScene c m) =
  (Ok tt,
   Camera.mkScene
     (Camera.mk 0 0
        (- max3 (vx (get_size m)) (vy (get_size m)) (vz (get_size m)) * 2.5)
        0 0 (Camera.rot_z c) (Camera.fov c) (Camera.near c) (Camera.far c)
        (- vx (get_center m)) (- vy (get_center m))
        (Camera.last_rot_x c) (Camera.last_rot_y c) true (Camera.cache_key c))
     m).
Proof. reflexivity. Qed.

(** Claim C10.  For every camera and every mesh, [auto_position] returns
    normally, leaves the mesh it was given as it was, and leaves the field
    of view, the near and far clip values, the roll angle [rot_z] and the
    cached fingerprint [cache_key] of the camera unchanged (as well as
    [last_rot_x] and [last_rot_y]); what it assigns is [z], [pan_x], [pan_y],
    [x], [y], [rot_x], [rot_y] and [moved]. *)
Theorem auto_position_frame (c : Camera.t) (m : Mesh) :
  exists c',
    Camera.auto_position (Camera.mkScene c m) = (Ok tt, Camera.mkScene c' m) /\
    Camera.fov c' = Camera.fov c /\
    Camera.near c' = Camera.near c /\
    Camera.far c' = Camera.far c /\
    Camera.rot_z c' = Camera.rot_z c /\
    Camera.cache_key c' = Camera.cache_key c /\
    Camera.last_rot_x c' = Camera.last_rot_x c /\
    Camera.last_rot_y c' = Camera.last_rot_y c.
Proof. eexists. rewrite auto_position_run. repeat split. Qed.

(** Claim C9.  With the camera as [__init__] leaves it (no rotation, no pan,
    [z = -5]), [project] maps the origin to the screen centre,
    [(WIDTH // 2, HEIGHT // 2)], with depth [-5]; for the initial window,
    1200 by 800, that is [(600, 400)], which is [(WIDTH / 2, HEIGHT / 2)]. *)
Theorem project_origin_default (WIDTH HEIGHT : Z) :
  Camera.project WIDTH HEIGHT Camera.init (0, 0, 0) =
    Ok ((WIDTH / 2)%Z, (HEIGHT / 2)%Z, -5) /\
  Camera.project 1200 800 Camera.init (0, 0, 0) = Ok (600%Z, 400%Z, -5) /\
  IZR 600 = IZR 1200 / 2 /\ IZR 400 = IZR 800 / 2.
Proof.
  assert (Hgen : forall W H, Camera.project W H Camera.init (0, 0, 0) =
                             Ok ((W / 2)%Z, (H / 2)%Z, -5)).
  { intros W H. unfold Camera.project.
    cbn [Camera.init Camera.rot_x Camera.rot_y Camera.x Camera.y Camera.z
         Camera.pan_x Camera.pan_y Camera.fov].
    rewrite py_div_nonzero.
    - rewrite !int_of_float_zero by ring. rewrite !Z.add_0_r.
      do 2 f_equal. ring.
    - rewrite sin_0, cos_0. lra. }
  split; [apply Hgen |]. split; [apply Hgen |]. split; lra.
Qed.

(** The camera height chosen by [auto_position]. *)
Lemma auto_position_z (c : Camera.t) (m : Mesh) :
  Camera.z (Camera.cam (snd (Camera.auto_position (Camera.mkScene c m)))) =
  - max3 (vx (get_size m)) (vy (get_size m)) (vz (get_size m)) * 2.5.
Proof. rewrite auto_position_run. reflexivity. Qed.

Lemma get_size_zero (m : Mesh) :
  fst (bounding_box m) = snd (bounding_box m) -> get_size m = (0, 0, 0).
Proof.
  unfold get_size. destruct (bounding_box m) as [lo hi]. simpl. intros ->.
  f_equal; [f_equal |]; ring.
Qed.

Lemma auto_position_zero_size (c : Camera.t) (m : Mesh) :
  fst (bounding_box m) = snd (bounding_box m) ->
  Camera.z (Camera.cam (snd (Camera.auto_position (Camera.mkScene c m)))) = 0.
Proof.
  intros H. rewrite auto_position_z, (get_size_zero m H).
  unfold vx, vy, vz. simpl. rewrite max3_same. ring.
Qed.

(** Claim C5, as amended.  [auto_position] places the camera at
    [z = - 2.5 * max_dim], where [max_dim] is the largest dimension of the
    bounding box, and enforces no minimum.  For a bounding box computed by
    [calculate_bounding_box] the distance [- z] is never negative.  An empty
    mesh has the default bounding box, so the camera goes to [z = -5]
    (distance 5); for a bounding box of size zero the camera goes to
    [z = 0] (distance 0). *)
Theorem auto_position_distance (c : Camera.t) (w : World) :
  let m := self (snd (calculate_bounding_box w)) in
  let c' := Camera.cam (snd (Camera.auto_position (Camera.mkScene c m))) in
  Camera.z c' = - max3 (vx (get_size m)) (vy (get_size m)) (vz (get_size m)) * 2.5 /\
  Camera.z c' <= 0 /\
  (vertices (self w) = [] -> Camera.z c' = -5) /\
  (fst (bounding_box m) = snd (bounding_box m) -> Camera.z c' = 0).
Proof.
  intros m c'. subst c'.
  split; [apply auto_position_z |].
  split.
  - rewrite auto_position_z.
    pose proof (calculate_bounding_box_ordered w) as Hord. fold m in Hord. cbv zeta in Hord.
    assert (Hsz : 0 <= vx (get_size m)).
    { unfold get_size. destruct (bounding_box m) as [lo hi]. unfold vx at 1. simpl.
      simpl in Hord. lra. }
    pose proof (max3_ge_l (vx (get_size m)) (vy (get_size m)) (vz (get_size m))). lra.
  - split.
    + intros Hempty. rewrite auto_position_z. unfold get_size, m.
      rewrite (calculate_bounding_box_empty w Hempty). unfold default_bounding_box, vx, vy, vz.
      simpl. unfold max3. replace (1 - -1) with 2 by lra.
      rewrite (Rmax_left 2 2) by lra. rewrite (Rmax_left 2 2) by lra. lra.
    + apply auto_position_zero_size.
Qed.

(** The amended C5 for a mesh without vertices. *)
Lemma auto_position_distance_witness :
  let m := self (snd (calculate_bounding_box still_world)) in
  let c' := Camera.cam (snd (Camera.auto_position (Camera.mkScene Camera.init m))) in
  Camera.z c' = - max3 (vx (get_size m)) (vy (get_size m)) (vz (get_size m)) * 2.5 /\
  Camera.z c' <= 0 /\
  (vertices (self still_world) = [] -> Camera.z c' = -5) /\
  (fst (bounding_box m) = snd (bounding_box m) -> Camera.z c' = 0).
Proof. exact (auto_position_distance Camera.init still_world). Defined.

(** Claim C5 fails as stated.  A file with the single line [v 1 2 3] is
    imported with success; the bounding box of the mesh has size zero, and
    [auto_position] then sets [z = 0]: the distance of the camera is zero,
    not strictly positive. *)
Lemma auto_position_single_point :
  let res := import_lines single_point_obj cube_world in
  let m := self (snd res) in
  let c' := Camera.cam (snd (Camera.auto_position (Camera.mkScene Camera.init m))) in
  fst res = Ok true /\
  length (vertices m) = 1%nat /\
  fst (bounding_box m) = snd (bounding_box m) /\
  Camera.z c' = 0 /\
  ~ 0 < - Camera.z c'.
Proof.
  cbv zeta.
  assert (Hbox : fst (bounding_box (self (snd (import_lines single_point_obj cube_world)))) =
                 snd (bounding_box (self (snd (import_lines single_point_obj cube_world)))))
    by (vm_compute; reflexivity).
  split; [vm_compute; reflexivity |].
  split; [vm_compute; reflexivity |].
  split; [exact Hbox |].
  rewrite (auto_position_zero_size _ _ Hbox). split; lra.
Qed.

(** ** Shading *)




(** ** The projection cache *)




Lemma projection_for_depth_miss (idx : Z) (vertex : vec3) (v : Viewer) :
  vertex_cache (mesh v) !! idx = None ->
  projection_for_depth true idx vertex v = recompute idx vertex v.
Proof.
  intros H. unfold projection_for_depth, bind, gets. rewrite H.
  unfold recompute, camera_project. destruct (Camera.project _ _ _ _); reflexivity.
Qed.

















(** ** The depth sort *)

Lemma insert_by_depth_perm (p : nat * R) (l : list (nat * R)) :
  Permutation (p :: l) (insert_by_depth p l).
Proof.
  induction l as [| q l IH]; simpl; [reflexivity |].
  destruct (Rlt_dec (snd p) (snd q)); [| reflexivity].
  rewrite perm_swap. apply perm_skip, IH.
Qed.

Lemma insert_by_depth_sorted (p : nat * R) (l : list (nat * R)) :
  StronglySorted deeper_or_equal l -> StronglySorted deeper_or_equal (insert_by_depth p l).
Proof.
  induction l as [| q l IH]; intros Hl; simpl.
  - constructor; constructor.
  - inversion Hl as [| q' l' Hl' Hq]; subst.
    destruct (Rlt_dec (snd p) (snd q)) as [Hlt | Hge].
    + constructor; [apply IH, Hl' |].
      apply (Permutation_Forall (insert_by_depth_perm p l)).
      constructor; [unfold deeper_or_equal; lra | exact Hq].
    + constructor; [exact Hl |].
      constructor; [unfold deeper_or_equal; lra |].
      eapply List.Forall_impl; [| exact Hq]. unfold deeper_or_equal. intros r Hr. lra.
Qed.

Lemma insert_by_depth_filter (d : R) (p : nat * R) (l : list (nat * R)) :
  List.filter (has_depth d) (insert_by_depth p l) = List.filter (has_depth d) (p :: l).
Proof.
  induction l as [| q l IH]; [reflexivity |].
  simpl insert_by_depth. destruct (Rlt_dec (snd p) (snd q)) as [Hlt | Hge]; [| reflexivity].
  simpl in *. rewrite IH. unfold has_depth.
  destruct (bool_decide (snd p = d)) eqn:Hp; [| reflexivity].
  apply bool_decide_eq_true in Hp.
  destruct (bool_decide (snd q = d)) eqn:Hq; [| reflexivity].
  apply bool_decide_eq_true in Hq. lra.
Qed.

Lemma insert_by_depth_front (p : nat * R) (l : list (nat * R)) :
  Forall (deeper_or_equal p) l -> insert_by_depth p l = p :: l.
Proof.
  intros H. destruct l as [| q l]; [reflexivity |]. simpl.
  inversion H as [| q' l' Hq _]; subst. unfold deeper_or_equal in Hq.
  destruct (Rlt_dec (snd p) (snd q)); [lra | reflexivity].
Qed.

Lemma insert_by_depth_behind (p q : nat * R) (l : list (nat * R)) :
  snd p < snd q -> insert_by_depth p (q :: l) = q :: insert_by_depth p l.
Proof. intros H. simpl. destruct (Rlt_dec (snd p) (snd q)); [reflexivity | contradiction]. Qed.

Lemma insert_by_depth_before (p q : nat * R) (l : list (nat * R)) :
  snd q <= snd p -> insert_by_depth p (q :: l) = p :: q :: l.
Proof. intros H. simpl. destruct (Rlt_dec (snd p) (snd q)); [lra | reflexivity]. Qed.

(** Sorting a list that is already in depth order changes nothing. *)
Lemma sort_by_depth_sorted_id (l : list (nat * R)) :
  StronglySorted deeper_or_equal l -> sort_by_depth l = l.
Proof.
  induction 1 as [| p l Hl IH Hp]; [reflexivity |].
  simpl. rewrite IH. apply insert_by_depth_front, Hp.
Qed.

Lemma sort_by_depth_is_sorted (l : list (nat * R)) :
  StronglySorted deeper_or_equal (sort_by_depth l).
Proof.
  induction l as [| p l IH]; simpl; [constructor | apply insert_by_depth_sorted, IH].
Qed.

(** Claim C7.  For every list of (face index, average depth) pairs the sort
    of a frame returns a rearrangement of the list in which depths never
    increase (farthest first); for every depth, the pairs of that depth
    come in the order they had before (the sort is stable); and sorting the
    result again changes nothing. *)
Theorem sort_by_depth_stable (l : list (nat * R)) :
  StronglySorted deeper_or_equal (sort_by_depth l) /\
  Permutation l (sort_by_depth l) /\
  (forall d, List.filter (has_depth d) (sort_by_depth l) = List.filter (has_depth d) l) /\
  sort_by_depth (sort_by_depth l) = sort_by_depth l.
Proof.
  split; [apply sort_by_depth_is_sorted |].
  split.
  { induction l as [| p l IH]; simpl; [constructor |].
    rewrite <- insert_by_depth_perm. apply perm_skip, IH. }
  split.
  { intros d. induction l as [| p l IH]; [reflexivity |].
    simpl sort_by_depth. rewrite insert_by_depth_filter. simpl. rewrite IH. reflexivity. }
  apply sort_by_depth_sorted_id, sort_by_depth_is_sorted.
Qed.

(** Runs the sort on a list of pairs with numeric depths. *)
Ltac sort_by_depth_run :=
  unfold sort_by_depth; cbn [fold_right];
  repeat match goal with
         | |- context [insert_by_depth ?p []] => change (insert_by_depth p []) with [p]
         | |- context [insert_by_depth ?p (?q :: ?l)] =>
             first [ rewrite (insert_by_depth_before p q l) by (simpl; lra)
                   | rewrite (insert_by_depth_behind p q l) by (simpl; lra) ]
         end.

(** Equal depths keep the order of the face indices. *)
Example sort_by_depth_ties :
  sort_by_depth [(0%nat, 1); (1%nat, 3); (2%nat, 1); (3%nat, 3)] =
  [(1%nat, 3); (3%nat, 3); (0%nat, 1); (2%nat, 1)].
Proof. sort_by_depth_run. reflexivity. Qed.

(** ** Further properties of the mesh *)

Lemma min_of_spec (l : list R) : forall x,
  In (min_of x l) (x :: l) /\ Forall (fun y => min_of x l <= y) (x :: l).
Proof.
  unfold min_of. induction l as [| a l IH]; intros x; simpl fold_left.
  - split; [left; reflexivity | constructor; [lra | constructor]].
  - destruct (IH (Rmin x a)) as [Hin Hall]. split.
    + destruct Hin as [Heq | Hin]; [| right; right; exact Hin].
      rewrite <- Heq. unfold Rmin. destruct (Rle_dec x a); [left | right; left]; reflexivity.
    + inversion Hall as [| m l' Hm Hl]; subst.
      pose proof (Rmin_l x a). pose proof (Rmin_r x a).
      constructor; [lra |]. constructor; [lra | exact Hl].
Qed.

Lemma max_of_spec (l : list R) : forall x,
  In (max_of x l) (x :: l) /\ Forall (fun y => y <= max_of x l) (x :: l).
Proof.
  unfold max_of. induction l as [| a l IH]; intros x; simpl fold_left.
  - split; [left; reflexivity | constructor; [lra | constructor]].
  - destruct (IH (Rmax x a)) as [Hin Hall]. split.
    + destruct Hin as [Heq | Hin]; [| right; right; exact Hin].
      rewrite <- Heq. unfold Rmax. destruct (Rle_dec x a); [right; left | left]; reflexivity.
    + inversion Hall as [| m l' Hm Hl]; subst.
      pose proof (Rmax_l x a). pose proof (Rmax_r x a).
      constructor; [lra |]. constructor; [lra | exact Hl].
Qed.

Lemma calculate_bounding_box_run (w : World) :
  calculate_bounding_box w =
  (Ok tt,
   mkWorld
     (mkMesh (vertices (self w)) (faces (self w)) (normals (self w)) (colors (self w))
        match vertices (self w) with
        | [] => default_bounding_box
        | v :: rest =>
            ((min_of (vx v) (map vx rest), min_of (vy v) (map vy rest),
              min_of (vz v) (map vz rest)),
             (max_of (vx v) (map vx rest), max_of (vy v) (map vy rest),
              max_of (vz v) (map vz rest)))
        end
        (vertex_cache (self w)))
     (random w)).
Proof.
  unfold calculate_bounding_box, bind, gets.
  destruct (vertices (self w)) eqn:Hv; unfold set_bounding_box, on_self, modify;
    rewrite ?Hv; reflexivity.
Qed.

Lemma calculate_bounding_box_boxed (w : World) : boxed (snd (calculate_bounding_box w)).
Proof.
  rewrite calculate_bounding_box_run. unfold boxed. cbn [fst snd self bounding_box vertices].
  destruct (vertices (self w)) as [| v rest]; [constructor |].
  destruct (min_of_spec (map vx rest) (vx v)) as [_ Lx].
  destruct (min_of_spec (map vy rest) (vy v)) as [_ Ly].
  destruct (min_of_spec (map vz rest) (vz v)) as [_ Lz].
  destruct (max_of_spec (map vx rest) (vx v)) as [_ Ux].
  destruct (max_of_spec (map vy rest) (vy v)) as [_ Uy].
  destruct (max_of_spec (map vz rest) (vz v)) as [_ Uz].
  apply List.Forall_forall. intros u Hu.
  rewrite List.Forall_forall in Lx, Ly, Lz, Ux, Uy, Uz.
  assert (Hx : In (vx u) (vx v :: map vx rest)) by (apply (in_map vx (v :: rest)), Hu).
  assert (Hy : In (vy u) (vy v :: map vy rest)) by (apply (in_map vy (v :: rest)), Hu).
  assert (Hz : In (vz u) (vz v :: map vz rest)) by (apply (in_map vz (v :: rest)), Hu).
  unfold inside_box. cbn [fst snd]. unfold vx at 1 3, vy at 1 3, vz at 1 3. cbn [fst snd].
  repeat split; auto.
Qed.

(** [calculate_bounding_box] always returns and changes nothing but the box.
    For a mesh without vertices the box is the default one; for any other
    mesh the box encloses every vertex and is tight: each of its six bounds
    is the coordinate of some vertex. *)
Theorem calculate_bounding_box_encloses (w : World) :
  let w' := snd (calculate_bounding_box w) in
  let b := bounding_box (self w') in
  fst (calculate_bounding_box w) = Ok tt /\
  seqs w' = seqs w /\
  Forall (inside_box b) (vertices (self w')) /\
  match vertices (self w) with
  | [] => b = default_bounding_box
  | _ =>
      In (vx (fst b)) (map vx (vertices (self w))) /\
      In (vy (fst b)) (map vy (vertices (self w))) /\
      In (vz (fst b)) (map vz (vertices (self w))) /\
      In (vx (snd b)) (map vx (vertices (self w))) /\
      In (vy (snd b)) (map vy (vertices (self w))) /\
      In (vz (snd b)) (map vz (vertices (self w)))
  end.
Proof.
  cbv zeta. split; [rewrite calculate_bounding_box_run; reflexivity |].
  split; [rewrite calculate_bounding_box_run; reflexivity |].
  split; [apply calculate_bounding_box_boxed |].
  rewrite calculate_bounding_box_run. cbn [fst snd self bounding_box vertices].
  destruct (vertices (self w)) as [| v rest]; [reflexivity |].
  destruct (min_of_spec (map vx rest) (vx v)) as [Ix _].
  destruct (min_of_spec (map vy rest) (vy v)) as [Iy _].
  destruct (min_of_spec (map vz rest) (vz v)) as [Iz _].
  destruct (max_of_spec (map vx rest) (vx v)) as [Jx _].
  destruct (max_of_spec (map vy rest) (vy v)) as [Jy _].
  destruct (max_of_spec (map vz rest) (vz v)) as [Jz _].
  repeat split; assumption.
Qed.

(** After [calculate_bounding_box] no dimension reported by
    [get_size] is negative and the point reported by [get_center] lies
    inside the box. *)
Theorem get_size_get_center_of_box (w : World) :
  let m := self (snd (calculate_bounding_box w)) in
  0 <= vx (get_size m) /\ 0 <= vy (get_size m) /\ 0 <= vz (get_size m) /\
  inside_box (bounding_box m) (get_center m).
Proof.
  rewrite calculate_bounding_box_run. cbn [snd self].
  unfold get_size, get_center, inside_box. cbn [bounding_box].
  destruct (vertices (self w)) as [| v rest].
  - unfold default_bounding_box, vx, vy, vz. cbn [fst snd]. repeat split; lra.
  - destruct (min_of_spec (map vx rest) (vx v)) as [_ Lx].
    destruct (min_of_spec (map vy rest) (vy v)) as [_ Ly].
    destruct (min_of_spec (map vz rest) (vz v)) as [_ Lz].
    destruct (max_of_spec (map vx rest) (vx v)) as [_ Ux].
    destruct (max_of_spec (map vy rest) (vy v)) as [_ Uy].
    destruct (max_of_spec (map vz rest) (vz v)) as [_ Uz].
    apply Forall_inv in Lx, Ly, Lz, Ux, Uy, Uz.
    unfold vx, vy, vz in *. cbn [fst snd] in *. repeat split; lra.
Qed.

(** ** Normals and light *)

Lemma sqrt_eq_1 (x : R) : 0 <= x -> sqrt x = 1 -> x = 1.
Proof. intros Hx H. rewrite <- (sqrt_sqrt x Hx), H. ring. Qed.

Lemma norm_unit_squares (v : vec3) :
  norm v = 1 -> vx v ^ 2 + vy v ^ 2 + vz v ^ 2 = 1.
Proof. unfold norm. apply sqrt_eq_1. nra. Qed.

Lemma normalize_unit (a b c : R) :
  0 < sqrt (a ^ 2 + b ^ 2 + c ^ 2) ->
  norm (a / sqrt (a ^ 2 + b ^ 2 + c ^ 2), b / sqrt (a ^ 2 + b ^ 2 + c ^ 2),
        c / sqrt (a ^ 2 + b ^ 2 + c ^ 2)) = 1.
Proof.
  intros Hlen. set (len := sqrt (a ^ 2 + b ^ 2 + c ^ 2)) in *.
  assert (Hsq : len * len = a ^ 2 + b ^ 2 + c ^ 2) by (apply sqrt_sqrt; nra).
  unfold norm, vx, vy, vz. cbn [fst snd].
  replace ((a / len) ^ 2 + (b / len) ^ 2 + (c / len) ^ 2) with 1; [apply sqrt_1 |].
  field_simplify_eq; [| lra]. nra.
Qed.

Lemma triangle_normal_norm (v1 v2 v3 : vec3) : norm (triangle_normal v1 v2 v3) = 1.
Proof.
  unfold triangle_normal. cbv zeta.
  match goal with |- context [Rlt_dec 0 ?l] => destruct (Rlt_dec 0 l) as [Hlen | Hlen] end.
  - apply normalize_unit. exact Hlen.
  - unfold norm, vx, vy, vz. cbn [fst snd].
    replace (0 ^ 2 + 0 ^ 2 + 1 ^ 2) with 1 by ring. apply sqrt_1.
Qed.

(** The normal computed for a triangle always has length one: it is the
    normalised cross product of the two edges that leave the first corner,
    hence perpendicular to both, or the fixed vector [(0, 0, 1)] when the
    cross product vanishes. *)
Theorem triangle_normal_unit (v1 v2 v3 : vec3) :
  let n := triangle_normal v1 v2 v3 in
  norm n = 1 /\
  (n = (0, 0, 1) \/ (dot n (edge v1 v2) = 0 /\ dot n (edge v1 v3) = 0)).
Proof.
  cbv zeta. split; [apply triangle_normal_norm |].
  unfold triangle_normal. cbv zeta.
  match goal with |- context [Rlt_dec 0 ?l] => destruct (Rlt_dec 0 l) as [Hlen | Hlen] end.
  - right. unfold dot, edge, vx, vy, vz in *. cbn [fst snd] in *.
    split; field; lra.
  - left; reflexivity.
Qed.

Lemma light_direction_unit (angle : R) : norm (light_direction angle) = 1.
Proof.
  unfold light_direction. cbv zeta.
  match goal with |- context [Rlt_dec 0 ?l] => destruct (Rlt_dec 0 l) as [Hlen | Hlen] end.
  - unfold vx, vy, vz in *. cbn [fst snd] in *. apply normalize_unit. exact Hlen.
  - exfalso. apply Hlen. apply sqrt_lt_R0.
    unfold vx, vy, vz. cbn [fst snd]. pose proof (sin2_cos2 angle) as H. unfold Rsqr in H. clear Hlen.
    assert (E : cos angle ^ 2 + sin angle ^ 2 = 1) by (rewrite <- H; ring). rewrite E. clear H E. nra.
Qed.

(** The light direction is a unit vector for every angle, so the intensity
    computed for a face with a unit normal lies between the ambient 0.2 and
    1: the range in which the five unclamped colour modes stay valid. *)
Theorem intensity_of_range (normal : vec3) (angle : R) :
  norm normal = 1 ->
  0.2 <= intensity_of normal (light_direction angle) <= 1.
Proof.
  intros Hn. pose proof (norm_unit_squares _ Hn) as Hn2.
  pose proof (norm_unit_squares _ (light_direction_unit angle)) as Hl2.
  unfold intensity_of. destruct (facing_of normal); [| lra].
  set (l := light_direction angle) in *.
  assert (Hdot : vx normal * vx l + vy normal * vy l + vz normal * vz l <= 1).
  { generalize dependent (vx normal). generalize dependent (vy normal).
    generalize dependent (vz normal). generalize dependent (vx l).
    generalize dependent (vy l). generalize dependent (vz l).
    intros lz ly lx Hl2 nz ny nx Hn2.
    pose proof (pow2_ge_0 (nx - lx)). pose proof (pow2_ge_0 (ny - ly)).
    pose proof (pow2_ge_0 (nz - lz)). nra. }
  unfold Rmax. destruct (Rle_dec _ _); lra.
Qed.

Lemma intensity_of_range_witness :
  0.2 <= intensity_of (0, 0, 1) (light_direction 0) <= 1.
Proof.
  apply intensity_of_range. unfold norm, vx, vy, vz. cbn [fst snd].
  replace (0 ^ 2 + 0 ^ 2 + 1 ^ 2) with 1 by ring. apply sqrt_1.
Defined.

Lemma int_of_float_IZR (n : Z) : int_of_float (IZR n) = n.
Proof.
  unfold int_of_float. destruct (Rle_dec 0 (IZR n)) as [H | H].
  - symmetry. apply Int_part_spec. lra.
  - rewrite <- opp_IZR. rewrite <- (Int_part_spec (IZR (- n)) (- n)); [lia | lra].
Qed.

(** In the Color mode with an intensity between 0 and 1 no channel is
    brighter than the base colour or negative, and at intensity 1 the base
    colour comes back unchanged. *)
Theorem texture_color_color_mode (base_color : color) (intensity : R) :
  (0 <= fst (fst base_color))%Z -> (0 <= snd (fst base_color))%Z -> (0 <= snd base_color)%Z ->
  0 <= intensity <= 1 ->
  let c := texture_color 0 base_color intensity in
  (0 <= fst (fst c) <= fst (fst base_color))%Z /\
  (0 <= snd (fst c) <= snd (fst base_color))%Z /\
  (0 <= snd c <= snd base_color)%Z /\
  texture_color 0 base_color 1 = base_color.
Proof.
  destruct base_color as [[r g] b]. cbn [fst snd]. intros Hr Hg Hb Hi.
  unfold texture_color. change (0 =? 0)%Z with true. cbv beta iota zeta. cbn [fst snd].
  apply IZR_le in Hr, Hg, Hb.
  split; [apply int_of_float_range; nra |].
  split; [apply int_of_float_range; nra |].
  split; [apply int_of_float_range; nra |].
  rewrite !Rmult_1_r, !int_of_float_IZR. reflexivity.
Qed.

Lemma texture_color_color_mode_witness :
  let c := texture_color 0 (200, 0, 255)%Z (1 / 4) in
  (0 <= fst (fst c) <= 200)%Z /\ (0 <= snd (fst c) <= 0)%Z /\ (0 <= snd c <= 255)%Z /\
  texture_color 0 (200, 0, 255)%Z 1 = (200, 0, 255)%Z.
Proof. apply (texture_color_color_mode (200, 0, 255)%Z (1 / 4)); simpl; try lia; lra. Defined.
